(** * folder-readme: the path -> tree -> text pipeline of [App.tsx]

    A shallow embedding of the helpers [buildTree], [removeKeyRecursively]
    and [treeToString] and of the handlers [handlePreview] and
    [handleGenerateReadme] of [src/App.tsx] (the second source file holds
    the same helpers and differs only in how the ignore names are
    collected), followed by the properties of the specification.

    Modelling conventions.
    - A JavaScript string is a [string]; the separators ['/'] and ['\n']
      and the decimal digits are single bytes, so splitting, joining and
      the array-index test do not depend on the encoding of other
      characters.
    - A plain object used as a tree node is the list of its own
      properties, kept in the order in which [Object.keys] and [for-in]
      enumerate them: array-index keys first, in ascending numeric order,
      then every other key in creation order.
    - [node[part]] reads through the prototype chain.  When [part] is not
      an own key but names a member of [Object.prototype], the walk of
      [buildTree] continues inside a built-in object: the run then
      completes with nothing added to the tree below that part
      ([["constructor"]] gives [{}]), or throws ([["constructor/name/x/y"]]),
      or writes into an object that every node inherits from.  The
      embedding does not follow the walk into the built-in objects: it
      reports [None] ([HostEscape] for the handler) for all of these runs
      and describes the result of none of them.  [buildTree] is [Some]
      exactly on the path lists without such a name ([plainPath],
      [buildTree_Some_iff_plain]); there every read is of an own key or
      of [undefined], and the embedding follows the code step by step.
    - The React state written by the handler is its result; the progress
      bar ([setProgress], [setShowProgress]) is not part of it. *)

From Stdlib Require Import String Ascii List NArith Lia Decimal DecimalString.
From stdpp Require Import base option list strings gmap.

Local Open Scope string_scope.
Local Open Scope list_scope.

(** ** Strings *)

Definition slash : ascii := "/"%char.
Definition newline : ascii := "010"%char.
Definition nl : string := String newline EmptyString.

(** [s.split(sep)] for a one-character separator: never empty, [""] gives
    [[""]], a trailing separator gives a last empty piece. *)
Fixpoint split (sep : ascii) (s : string) : list string :=
  match s with
  | EmptyString => [EmptyString]
  | String c s' =>
      if Ascii.eqb c sep then EmptyString :: split sep s'
      else match split sep s' with
           | [] => [String c EmptyString]
           | piece :: pieces => String c piece :: pieces
           end
  end.

(** [l.join(sep)] *)
Definition join (sep : string) (l : list string) : string := String.concat sep l.

(** [path.split('/')[0]] *)
Definition firstPart (path : string) : string := hd EmptyString (split slash path).

(** The decimal text of [n], as a template literal prints a length. *)
Definition decimal (n : nat) : string := NilEmpty.string_of_uint (Nat.to_uint n).

(** ** Property keys that are array indices

    A key is an array index when it is the canonical decimal text of an
    integer between 0 and 2^32 - 2. *)

Definition isDigit (c : ascii) : bool :=
  (48 <=? nat_of_ascii c)%nat && (nat_of_ascii c <=? 57)%nat.

Fixpoint digitsValue (acc : N) (s : string) : option N :=
  match s with
  | EmptyString => Some acc
  | String c s' =>
      if isDigit c then digitsValue (acc * 10 + (N_of_ascii c - 48))%N s' else None
  end.

Definition arrayIndex (key : string) : option N :=
  match key with
  | EmptyString => None
  | String c rest =>
      if Ascii.eqb c "0"%char && negb (String.eqb rest EmptyString) then None
      else match digitsValue 0%N key with
           | Some n => if (n <? 4294967295)%N then Some n else None
           | None => None
           end
  end.

Definition isArrayIndex (key : string) : bool :=
  match arrayIndex key with Some _ => true | None => false end.

(** ** Own properties of a plain object, in enumeration order *)

Section Props.
Context {A : Type}.

(** [obj[key]] restricted to own properties *)
Fixpoint getOwn (key : string) (ps : list (string * A)) : option A :=
  match ps with
  | [] => None
  | (k, v) :: tl => if String.eqb k key then Some v else getOwn key tl
  end.

(** overwrite the value of an existing own property: its place is kept *)
Fixpoint putOwn (key : string) (v : A) (ps : list (string * A)) : list (string * A) :=
  match ps with
  | [] => []
  | (k, w) :: tl =>
      if String.eqb k key then (k, v) :: tl else (k, w) :: putOwn key v tl
  end.

(** a new array-index key [n] goes before the first key that is not a
    smaller array index *)
Fixpoint insertIndex (n : N) (key : string) (v : A) (ps : list (string * A))
  : list (string * A) :=
  match ps with
  | [] => [(key, v)]
  | (k, w) :: tl =>
      match arrayIndex k with
      | Some m => if (m <? n)%N then (k, w) :: insertIndex n key v tl
                  else (key, v) :: ps
      | None => (key, v) :: ps
      end
  end.

(** create an own property that does not exist yet *)
Definition defineOwn (key : string) (v : A) (ps : list (string * A)) : list (string * A) :=
  match arrayIndex key with
  | Some n => insertIndex n key v ps
  | None => ps ++ [(key, v)]
  end.
End Props.

(** Names every plain object inherits from [Object.prototype]; all of
    them read as truthy values. *)
Definition objectPrototypeNames : list string :=
  [ "constructor"; "__proto__"; "hasOwnProperty"; "isPrototypeOf";
    "propertyIsEnumerable"; "toLocaleString"; "toString"; "valueOf";
    "__defineGetter__"; "__defineSetter__"; "__lookupGetter__"; "__lookupSetter__" ].

Definition inherited (key : string) : bool :=
  existsb (String.eqb key) objectPrototypeNames.

(** ** Tree nodes: [Record<string, Record<string, unknown>>] *)

#[local] Set Warnings "-register-all".

Inductive Tree : Type :=
  Node (props : list (string * Tree)).

Definition props (t : Tree) : list (string * Tree) :=
  match t with Node ps => ps end.

(** [Object.keys(tree)] *)
Definition keys (t : Tree) : list string := map fst (props t).

(** ** buildTree *)

(** The inner [parts.forEach]: starting at [node], follow or create one
    property per part.  The result is the node after the update of the
    object graph below it.  [None] when a part is read from
    [Object.prototype]: [!node[part]] is then false, no key is created and
    [node] becomes a built-in object; what the program does from there on
    (complete with this subtree missing, or throw) is not described by
    this function. *)
Fixpoint walk (parts : list string) (node : Tree) : option Tree :=
  match parts with
  | [] => Some node
  | part :: rest =>
      match getOwn part (props node) with
      | Some child =>
          match walk rest child with
          | Some child' => Some (Node (putOwn part child' (props node)))
          | None => None
          end
      | None =>
          if inherited part then None
          else match walk rest (Node []) with
               | Some child' => Some (Node (defineOwn part child' (props node)))
               | None => None
               end
      end
  end.

(** the body of the outer [filePaths.forEach] *)
Definition addPath (acc : option Tree) (path : string) : option Tree :=
  match acc with
  | Some tree => walk (split slash path) tree
  | None => None
  end.

Definition buildTree (filePaths : list string) : option Tree :=
  foldl addPath (Some (Node [])) filePaths.

(** ** removeKeyRecursively *)

Fixpoint removeKeyRecursively (obj : Tree) (keyToRemove : string) : Tree :=
  match obj with
  | Node ps =>
      Node ((fix each (ps : list (string * Tree)) : list (string * Tree) :=
               match ps with
               | [] => []
               | (key, child) :: tl =>
                   if String.eqb key keyToRemove then each tl
                   else (key, removeKeyRecursively child keyToRemove) :: each tl
               end) ps)
  end.

(** ** treeToString *)

Definition lastConnector : string := "└── ".
Definition midConnector : string := "├── ".
Definition lastPad : string := "    ".
Definition midPad : string := "│   ".

Fixpoint treeToString (tree : Tree) (indent : string) : list string :=
  match tree with
  | Node ps =>
      let n := length ps in
      (fix each (index : nat) (ps : list (string * Tree)) : list string :=
         match ps with
         | [] => []
         | (key, children) :: tl =>
             let isLast := Nat.eqb index (n - 1) in
             let prefix := if isLast then indent +:+ lastConnector
                           else indent +:+ midConnector in
             ((prefix +:+ key)
                :: (if Nat.ltb 0 (length (props children))
                    then treeToString children
                           (indent +:+ (if isLast then lastPad else midPad))
                    else []))
               ++ each (S index) tl
         end) 0%nat ps
  end.

(** ** handlePreview *)

Definition builtinIgnores : list string := [ "node_modules"; ".git"; ".DS_Store" ].

(** the three [ignoreFolders.add] calls *)
Definition addBuiltins (ignoreFolders : gset string) : gset string :=
  {[ ".DS_Store" ]} ∪ ({[ ".git" ]} ∪ ({[ "node_modules" ]} ∪ ignoreFolders)).

(** [App.tsx]: one optional ignore selection *)
Definition ignoreFoldersOf (ignoreFiles : option (list string)) : gset string :=
  match ignoreFiles with
  | Some files => foldl (fun acc path => {[ firstPart path ]} ∪ acc) ∅ files
  | None => ∅
  end.

(** second source file: a list of optional ignore selections *)
Definition ignoreFoldersOfList (ignoreFoldersList : list (option (list string)))
  : gset string :=
  foldl (fun acc files =>
           match files with
           | Some fs => foldl (fun acc' path => {[ firstPart path ]} ∪ acc') acc fs
           | None => acc
           end) ∅ ignoreFoldersList.

(** the [for] loop over [projectFiles] *)
Definition filterPaths (ignoreFolders : gset string) (projectFiles : list string)
  : list string :=
  foldl (fun filePaths relPath =>
           if bool_decide (firstPart relPath ∈ ignoreFolders) then filePaths
           else filePaths ++ [relPath])
        [] projectFiles.

(** the three calls of [removeKeyRecursively] *)
Definition pruneBuiltins (tree : Tree) : Tree :=
  removeKeyRecursively
    (removeKeyRecursively
       (removeKeyRecursively tree "node_modules") ".git") ".DS_Store".

Definition prunedTree (filePaths : list string) : option Tree :=
  match buildTree filePaths with
  | Some tree => Some (pruneBuiltins tree)
  | None => None
  end.

Definition truncationNote (n : nat) : string :=
  nl +:+ "... (truncated, total " +:+ decimal n +:+ " lines)".

Definition previewOf (structureText : string) : string :=
  let lines := split newline structureText in
  let preview := join nl (take 100 lines) in
  if Nat.ltb 100 (length lines) then preview +:+ truncationNote (length lines)
  else preview.

(** What the handler does: the alert, the state it stores, or
    [HostEscape] when the walk of [buildTree] has left the tree (the run
    then stores a structure built from a smaller tree, or throws; neither
    is described here). *)
Inductive Outcome : Type :=
| Alert (message : string)
| HostEscape (rootFolderName : string)
| Preview (rootFolderName structure previewContent : string).

(** [userIgnores] is the content of [ignoreFolders] before the built-in
    names are added. *)
Definition handlePreviewWith (userIgnores : gset string)
    (projectFiles : option (list string)) : Outcome :=
  match projectFiles with
  | None | Some [] => Alert "Please select a project folder."
  | Some ((firstFile :: _) as files) =>
      let rootFolder := firstPart firstFile in
      let ignoreFolders := addBuiltins userIgnores in
      let filePaths := filterPaths ignoreFolders files in
      match prunedTree filePaths with
      | None => HostEscape rootFolder
      | Some tree =>
          let structureLines := [rootFolder] ++ treeToString tree "" in
          let structureText := join nl structureLines in
          Preview rootFolder structureText (previewOf structureText)
      end
  end.

Definition handlePreview (projectFiles ignoreFiles : option (list string)) : Outcome :=
  handlePreviewWith (ignoreFoldersOf ignoreFiles) projectFiles.

Definition handlePreviewList (projectFiles : option (list string))
    (ignoreFoldersList : list (option (list string))) : Outcome :=
  handlePreviewWith (ignoreFoldersOfList ignoreFoldersList) projectFiles.

(** ** handleGenerateReadme *)

Definition fence : string := "```".
Definition heading : string := "# Project File and Folder Structure".

Definition readmeContent (structure : string) : string :=
  heading +:+ nl +:+ nl +:+ "Below is the structure of the project:" +:+ nl +:+ nl
    +:+ fence +:+ nl +:+ structure +:+ nl +:+ fence.

(** [inl] is the alert, [inr] the content of the downloaded file *)
Definition handleGenerateReadme (structure rootFolderName : string) : string + string :=
  if String.eqb structure "" || String.eqb rootFolderName ""
  then inl "Missing structure or folder name."
  else inr (readmeContent structure).

(** ** Reading a tree *)

(** the node reached from [t] along a list of keys *)
Fixpoint nodeAt (d : list string) (t : Tree) : option Tree :=
  match d with
  | [] => Some t
  | k :: d' =>
      match getOwn k (props t) with
      | Some child => nodeAt d' child
      | None => None
      end
  end.

(** [name] is a key of some node of [t], at any depth *)
Fixpoint hasKey (name : string) (t : Tree) : bool :=
  match t with
  | Node ps =>
      (fix any (ps : list (string * Tree)) : bool :=
         match ps with
         | [] => false
         | (k, child) :: tl => String.eqb k name || hasKey name child || any tl
         end) ps
  end.

(** the structure text of an outcome, when there is one *)
Definition structureOf (o : Outcome) : option string :=
  match o with
  | Preview _ structure _ => Some structure
  | _ => None
  end.

(** ** Vocabulary of the properties *)

(** the scenario of the specification *)
Definition scenarioPaths : list string :=
  [ "proj/src/index.ts"; "proj/src/util.ts"; "proj/README.md";
    "proj/node_modules/pkg/index.js" ].

Definition fiveLines : list string :=
  [ "proj"; "├── src"; "│   ├── index.ts"; "│   └── util.ts"; "└── README.md" ].

Definition sixLines : list string :=
  [ "proj"; "└── proj"; "    ├── src"; "    │   ├── index.ts";
    "    │   └── util.ts"; "    └── README.md" ].

Definition scenarioTree : Tree :=
  Node [ ("proj", Node [ ("src", Node [ ("index.ts", Node []); ("util.ts", Node []) ]);
                         ("README.md", Node []) ]) ].

(** the test of the filter loop, negated *)
Definition retained (ignoreFolders : gset string) (relPath : string) : bool :=
  negb (bool_decide (firstPart relPath ∈ ignoreFolders)).

(** the connector and the child indentation of the sibling at position
    [i] among [n] *)
Definition connector (i n : nat) : string :=
  if Nat.eqb i (n - 1) then lastConnector else midConnector.

Definition pad (i n : nat) : string :=
  if Nat.eqb i (n - 1) then lastPad else midPad.

(** the line of one entry, followed by the lines of its child *)
Definition lineGroup (n : nat) (indent : string) (i : nat) (kc : string * Tree)
  : list string :=
  (indent +:+ connector i n +:+ fst kc)
    :: (if Nat.ltb 0 (length (props (snd kc)))
        then treeToString (snd kc) (indent +:+ pad i n)
        else []).

(** a line that opens or closes a fenced code block: at most three spaces,
    then three backquotes *)
Fixpoint dropSpaces (n : nat) (s : string) : string :=
  match n, s with
  | S n', String c s' => if Ascii.eqb c " "%char then dropSpaces n' s' else s
  | _, _ => s
  end.

Definition isFenceLine (line : string) : bool :=
  String.prefix fence (dropSpaces 3 line).

Definition fenceLines (text : string) : nat :=
  length (List.filter isFenceLine (split newline text)).

(** [chain] is a chain of leading segments of [path] *)
Definition leads (chain : list string) (path : string) : Prop :=
  chain `prefix_of` split slash path.

(** [x] occurs before [y] in a list of keys *)
Definition keyBefore (x y : string) (ks : list string) : Prop :=
  exists ka kb kc, ks = ka ++ x :: kb ++ y :: kc.

(** the node at [d] is rendered as a block of the output of [tree], and in
    that block the line of its key [x] comes before the line of its key
    [y] *)
Definition rendersBefore (tree : Tree) (d : list string) (x y : string) : Prop :=
  exists dir ind,
    nodeAt d tree = Some dir
    /\ keyBefore x y (keys dir)
    /\ (exists pre post, treeToString tree "" = pre ++ treeToString dir ind ++ post)
    /\ (exists la lb lc cx cy,
          treeToString dir ind
          = la ++ (ind +:+ cx +:+ x) :: lb ++ (ind +:+ cy +:+ y) :: lc
          /\ In cx [lastConnector; midConnector]
          /\ In cy [lastConnector; midConnector]).

(** the node reached by the key [k] below the chain [d] has a line in the
    output of [tree] *)
Definition rendersNode (tree : Tree) (d : list string) (k : string) : Prop :=
  is_Some (nodeAt (d ++ [k]) tree)
  /\ exists ind c,
       In (ind +:+ c +:+ k) (treeToString tree "")
       /\ In c [lastConnector; midConnector].

(** the order of [Object.keys]: array indices in ascending numeric order,
    each at least [lo], then keys that are not array indices *)
Fixpoint enumerated (lo : N) (ks : list string) : bool :=
  match ks with
  | [] => true
  | k :: tl =>
      match arrayIndex k with
      | Some n => (lo <=? n)%N && enumerated n tl
      | None => forallb (fun k' => negb (isArrayIndex k')) tl
      end
  end.

(** every node of the tree lists its keys in that order *)
Fixpoint wellEnumerated (t : Tree) : bool :=
  match t with
  | Node ps =>
      enumerated 0 (map fst ps)
      && (fix all (ps : list (string * Tree)) : bool :=
            match ps with
            | [] => true
            | (_, child) :: tl => wellEnumerated child && all tl
            end) ps
  end.

(** no segment of the path names a member of [Object.prototype] *)
Definition plainPath (path : string) : Prop :=
  forall part, In part (split slash path) -> inherited part = false.

(** a structure text of 150 lines *)
Definition sample150 : string :=
  join nl (map (fun i => "line " +:+ decimal i) (seq 0 150)).

(** * The rest of the component *)

(** ** getFileCount, getRootFolderName *)

Definition getFileCount (files : option (list string)) : nat :=
  match files with
  | Some fs => length fs
  | None => 0%nat
  end.

Definition getRootFolderName (files : option (list string)) : string :=
  match files with
  | None | Some [] => ""
  | Some (firstFile :: _) => firstPart firstFile
  end.

(** ** handleProjectFilesChange, handleIgnoreFilesChange ([App.tsx])

    The argument is [e.target.files]; the result is the value given to
    [setProjectFiles] (to [setIgnoreFiles]). *)

Definition handleProjectFilesChange (targetFiles : option (list string))
  : option (list string) :=
  match targetFiles with
  | Some ((_ :: _) as files) => Some files
  | _ => None
  end.

Definition handleIgnoreFilesChange (targetFiles : option (list string))
  : option (list string) :=
  match targetFiles with
  | Some ((_ :: _) as files) => Some files
  | _ => None
  end.

(** ** The state of the component ([App.tsx])

    The [useState] cells that [handleStartOver], [handlePreview] and
    [handleGenerateReadme] reset, write or read; [progress] holds the last
    value given to [setProgress].  The alert cell is the [Alerted] result
    of a handler; the two expansion flags belong to the panel only. *)

Module State.
Record t : Type := make {
  projectFiles : option (list string);
  ignoreFiles : option (list string);
  previewContent : string;
  showGenerateButton : bool;
  progress : nat;
  showProgress : bool;
  rootFolderName : string;
  structure : string
}.
End State.

Definition initialState : State.t :=
  State.make None None "[Preview will appear here]" false 0 false "" "".

(** ** handleStartOver *)

Definition handleStartOver (s : State.t) : State.t :=
  State.make None None "[Preview will appear here]" false 0 false "" "".

(** ** handlePreview, on the state

    [Alerted]: the alert is shown and nothing is written.  [Done]: the
    state once the timer callback has run; the last [setProgress] is the
    one of the last file, [Math.round((n / n) * 100)], which is 100.
    [Escaped]: [buildTree] left the tree, see [HostEscape]. *)

Inductive Step : Type :=
| Alerted (message : string) (s : State.t)
| Escaped
| Done (s : State.t).

Definition handlePreviewState (s : State.t) : Step :=
  match handlePreview (State.projectFiles s) (State.ignoreFiles s) with
  | Alert message => Alerted message s
  | HostEscape _ => Escaped
  | Preview rootFolder structureText preview =>
      Done (State.make (State.projectFiles s) (State.ignoreFiles s)
              preview true 100 true rootFolder structureText)
  end.

(** ** handleGenerateReadme, on the state

    [inr] holds [link.download] and the content of the blob. *)

Definition handleGenerateReadmeState (s : State.t) : string + (string * string) :=
  match handleGenerateReadme (State.structure s) (State.rootFolderName s) with
  | inl message => inl message
  | inr content => inr (State.rootFolderName s +:+ ".md", content)
  end.

(** ** The list of ignore selections (second source file)

    An entry is [{ id, files }]; [now] is the text of [Date.now()], the
    decimal count of milliseconds. *)

Definition handleAddIgnoreFolder (now : string)
    (ignoreFoldersList : list (string * option (list string)))
  : list (string * option (list string)) :=
  ignoreFoldersList ++ [(now, None)].

Definition handleIgnoreFilesChangeAt (id : string) (files : option (list string))
    (prevList : list (string * option (list string)))
  : list (string * option (list string)) :=
  map (fun item => if String.eqb (fst item) id then (fst item, files) else item) prevList.

Definition handleRemoveIgnoreFolder (id : string)
    (prevList : list (string * option (list string)))
  : list (string * option (list string)) :=
  List.filter (fun item => negb (String.eqb (fst item) id)) prevList.

(** the [ignoreFolders] set computed by [handlePreview] from that list *)
Definition ignoreFoldersOfEntries
    (ignoreFoldersList : list (string * option (list string))) : gset string :=
  ignoreFoldersOfList (map snd ignoreFoldersList).

(** ** The progress reports of the filter loop

    The indices [i] at which the loop calls [setProgress]. *)

Definition progressIndices (totalFiles : nat) : list nat :=
  List.filter (fun i => Nat.eqb (i mod 100) 0 || Nat.eqb i (totalFiles - 1))
              (seq 0 totalFiles).

(** ** Vocabulary of the further properties *)

(** the chains of keys of the nodes below [t], parents before children,
    siblings in enumeration order; [d] is the chain of [t] itself *)
Fixpoint chains (t : Tree) (d : list string) : list (list string) :=
  match t with
  | Node ps =>
      (fix each (ps : list (string * Tree)) : list (list string) :=
         match ps with
         | [] => []
         | (k, child) :: tl => ((d ++ [k]) :: chains child (d ++ [k])) ++ each tl
         end) ps
  end.

(** the keys of every node are pairwise different *)
Fixpoint uniqueKeys (t : Tree) : Prop :=
  match t with
  | Node ps =>
      NoDup (map fst ps)
      /\ (fix all (ps : list (string * Tree)) : Prop :=
            match ps with
            | [] => True
            | (_, child) :: tl => uniqueKeys child /\ all tl
            end) ps
  end.

(** [line] is the line of the node at [chain] when the node at [d] is
    rendered with [indent]: one pad for every level between the two, a
    connector and the last key of the chain *)
Definition lineOfChain (indent : string) (d : list string)
    (line : string) (chain : list string) : Prop :=
  exists pads c k,
    line = indent +:+ String.concat "" pads +:+ c +:+ k
    /\ List.last chain "" = k
    /\ (length d + length pads + 1 = length chain)%nat
    /\ Forall (fun p => In p [lastPad; midPad]) pads
    /\ In c [lastConnector; midConnector].

(** the character [c] does not occur in [s] *)
Fixpoint lacks (c : ascii) (s : string) : bool :=
  match s with
  | EmptyString => true
  | String x s' => negb (Ascii.eqb x c) && lacks c s'
  end.

(** * Properties *)

(** ** Induction on trees *)

Lemma Tree_ind_props (P : Tree -> Prop) :
  (forall ps, Forall (fun kc => P (snd kc)) ps -> P (Node ps)) ->
  forall t, P t.
Proof.
  intros step.
  fix IH 1.
  intros [ps]. apply step.
  induction ps as [|[k c] tl IHtl]; constructor; [apply IH | exact IHtl].
Qed.

Lemma Node_props t : Node (props t) = t.
Proof. by destruct t. Qed.

(** ** Strings: append, split, join *)

Lemma append_cons (x : ascii) (a b : string) :
  String x a +:+ b = String x (a +:+ b).
Proof. reflexivity. Qed.

Lemma append_nil_l (a : string) : "" +:+ a = a.
Proof. reflexivity. Qed.

Lemma append_assoc (a b c : string) : (a +:+ b) +:+ c = a +:+ (b +:+ c).
Proof.
  induction a as [|x a IH]; [reflexivity|].
  by rewrite !append_cons, IH.
Qed.

Lemma nl_append s : nl +:+ s = String newline s.
Proof. reflexivity. Qed.

Lemma split_not_nil sep s : split sep s <> [].
Proof.
  destruct s as [|c s]; simpl; [discriminate|].
  destruct (Ascii.eqb c sep); [discriminate|].
  destruct (split sep s); discriminate.
Qed.

Lemma split_sep_cons sep b : split sep (String sep b) = "" :: split sep b.
Proof. cbn [split]. by rewrite Ascii.eqb_refl. Qed.

Lemma split_append sep a b :
  split sep (a +:+ String sep b) = split sep a ++ split sep b.
Proof.
  induction a as [|c a IH].
  - rewrite append_nil_l. cbn [split]. by rewrite Ascii.eqb_refl.
  - rewrite append_cons. cbn [split]. rewrite IH.
    destruct (Ascii.eqb c sep); [reflexivity|].
    destruct (split sep a) as [|y l] eqn:E; [by apply split_not_nil in E|].
    reflexivity.
Qed.

Lemma join_cons sep x y l : join sep (x :: y :: l) = x +:+ sep +:+ join sep (y :: l).
Proof. reflexivity. Qed.

Lemma join_cons_String sep c x l :
  join sep (String c x :: l) = String c (join sep (x :: l)).
Proof. destruct l; reflexivity. Qed.

Lemma join_split s : join nl (split newline s) = s.
Proof.
  induction s as [|c s IH]; [reflexivity|].
  cbn [split]. destruct (Ascii.eqb_spec c newline) as [->|Hc].
  - destruct (split newline s) as [|y l] eqn:E; [by apply split_not_nil in E|].
    rewrite join_cons, IH. reflexivity.
  - destruct (split newline s) as [|y l] eqn:E; [by apply split_not_nil in E|].
    by rewrite join_cons_String, IH.
Qed.

Lemma join_snoc sep l x :
  l <> [] -> join sep (l ++ [x]) = join sep l +:+ sep +:+ x.
Proof.
  induction l as [|y l IH]; [done|]. intros _.
  destruct l as [|z l]; [reflexivity|].
  change ((y :: z :: l) ++ [x]) with (y :: (z :: l) ++ [x]).
  cbn [app]. rewrite !join_cons. cbn [app] in IH. rewrite IH by done.
  by rewrite !append_assoc.
Qed.

(** ** Own properties *)

Section PropsFacts.
Context {A : Type}.
Implicit Types (ps : list (string * A)) (k key : string) (v : A).

Lemma getOwn_None_iff key ps : getOwn key ps = None <-> ~ In key (map fst ps).
Proof.
  induction ps as [|[k w] tl IH]; simpl; [tauto|].
  destruct (String.eqb_spec k key) as [->|Hne].
  - split; [discriminate | tauto].
  - rewrite IH. tauto.
Qed.

Lemma getOwn_Some_In key ps : is_Some (getOwn key ps) <-> In key (map fst ps).
Proof.
  destruct (getOwn key ps) eqn:E.
  - split; [intros _|eauto].
    destruct (in_dec string_dec key (map fst ps)) as [|Hn]; [done|].
    apply getOwn_None_iff in Hn. congruence.
  - apply getOwn_None_iff in E. split; [by intros [? ?] | tauto].
Qed.

Lemma putOwn_keys key v ps : map fst (putOwn key v ps) = map fst ps.
Proof.
  induction ps as [|[k w] tl IH]; simpl; [reflexivity|].
  destruct (String.eqb k key); simpl; by rewrite ?IH.
Qed.

Lemma getOwn_putOwn_same key v ps :
  is_Some (getOwn key ps) -> getOwn key (putOwn key v ps) = Some v.
Proof.
  induction ps as [|[k w] tl IH]; simpl; [by intros [? ?]|].
  destruct (String.eqb k key) eqn:E; simpl; rewrite E; auto.
Qed.

Lemma getOwn_putOwn_other key k v ps :
  k <> key -> getOwn k (putOwn key v ps) = getOwn k ps.
Proof.
  intros Hne. induction ps as [|[k' w] tl IH]; simpl; [reflexivity|].
  destruct (String.eqb_spec k' key) as [->|Hk]; simpl.
  - destruct (String.eqb_spec key k); [congruence | reflexivity].
  - by rewrite IH.
Qed.

Lemma getOwn_app key ps qs :
  getOwn key (ps ++ qs)
  = match getOwn key ps with Some v => Some v | None => getOwn key qs end.
Proof.
  induction ps as [|[k w] tl IH]; simpl; [reflexivity|].
  destruct (String.eqb k key); auto.
Qed.

(** a created key lands somewhere in the list, the others keep their
    relative order; a key that is not an array index lands at the end *)
Lemma insertIndex_split n key v ps :
  exists ps1 ps2, ps = ps1 ++ ps2 /\ insertIndex n key v ps = ps1 ++ (key, v) :: ps2.
Proof.
  induction ps as [|[k w] tl (ps1 & ps2 & Htl & Hins)]; simpl.
  - by exists [], [].
  - destruct (arrayIndex k) as [m|].
    + destruct (m <? n)%N.
      * exists ((k, w) :: ps1), ps2. simpl. by rewrite Hins, <- Htl.
      * by exists [], ((k, w) :: tl).
    + by exists [], ((k, w) :: tl).
Qed.

Lemma defineOwn_split key v ps :
  exists ps1 ps2,
    ps = ps1 ++ ps2 /\ defineOwn key v ps = ps1 ++ (key, v) :: ps2
    /\ (isArrayIndex key = false -> ps2 = []).
Proof.
  unfold defineOwn, isArrayIndex. destruct (arrayIndex key) as [n|].
  - destruct (insertIndex_split n key v ps) as (ps1 & ps2 & H1 & H2).
    exists ps1, ps2. repeat split; [done..|discriminate].
  - exists ps, []. by rewrite app_nil_r.
Qed.

Lemma getOwn_defineOwn_same key v ps :
  getOwn key ps = None -> getOwn key (defineOwn key v ps) = Some v.
Proof.
  intros Hn. destruct (defineOwn_split key v ps) as (ps1 & ps2 & H1 & -> & _).
  subst ps. rewrite getOwn_app in Hn |- *.
  destruct (getOwn key ps1); [discriminate|]. simpl. by rewrite String.eqb_refl.
Qed.

Lemma getOwn_defineOwn_other key k v ps :
  k <> key -> getOwn k (defineOwn key v ps) = getOwn k ps.
Proof.
  intros Hne. destruct (defineOwn_split key v ps) as (ps1 & ps2 & H1 & -> & _).
  subst ps. rewrite !getOwn_app. destruct (getOwn k ps1); [reflexivity|].
  simpl. destruct (String.eqb_spec key k); [congruence | reflexivity].
Qed.

End PropsFacts.

Lemma getOwn_split {A} key (ps : list (string * A)) v :
  getOwn key ps = Some v -> exists pa pb, ps = pa ++ (key, v) :: pb.
Proof.
  induction ps as [|[k w] tl IH]; [discriminate|]. cbn [getOwn].
  destruct (String.eqb_spec k key) as [->|Hne].
  - intros [= ->]. by exists [], tl.
  - intros (pa & pb & ->)%IH. by exists ((k, w) :: pa), pb.
Qed.

(** ** One path of [buildTree] *)

(** the three ways [walk] handles the next part *)
Lemma walk_cons_inv part rest node node' :
  walk (part :: rest) node = Some node' ->
  (exists child child',
      getOwn part (props node) = Some child /\ walk rest child = Some child'
      /\ node' = Node (putOwn part child' (props node)))
  \/ (exists child',
        getOwn part (props node) = None /\ inherited part = false
        /\ walk rest (Node []) = Some child'
        /\ node' = Node (defineOwn part child' (props node))).
Proof.
  cbn [walk]. destruct (getOwn part (props node)) as [child|] eqn:E.
  - destruct (walk rest child) as [child'|] eqn:W; [|discriminate].
    intros [= <-]. left. eauto.
  - destruct (inherited part); [discriminate|].
    destruct (walk rest (Node [])) as [child'|] eqn:W; [|discriminate].
    intros [= <-]. right. eauto.
Qed.

(** after the walk of [parts], the node reached by [part] is the walked child *)
Lemma walk_cons_child part rest node node' :
  walk (part :: rest) node = Some node' ->
  exists child child',
    getOwn part (props node') = Some child'
    /\ walk rest child = Some child'
    /\ (getOwn part (props node) = Some child
        \/ getOwn part (props node) = None /\ child = Node []).
Proof.
  intros [(child & child' & E & W & ->)|(child' & E & _ & W & ->)]%walk_cons_inv.
  - exists child, child'. cbn [props]. rewrite getOwn_putOwn_same by (rewrite E; eauto).
    auto.
  - exists (Node []), child'. cbn [props]. rewrite getOwn_defineOwn_same by done.
    auto.
Qed.

(** the other keys of the node are not touched *)
Lemma walk_cons_other part rest node node' k :
  walk (part :: rest) node = Some node' -> k <> part ->
  getOwn k (props node') = getOwn k (props node).
Proof.
  intros [(child & child' & E & W & ->)|(child' & E & _ & W & ->)]%walk_cons_inv Hne;
    cbn [props].
  - by apply getOwn_putOwn_other.
  - by apply getOwn_defineOwn_other.
Qed.

(** every chain of leading parts is a node afterwards *)
Lemma walk_nodeAt_prefix parts node node' pre :
  walk parts node = Some node' -> pre `prefix_of` parts ->
  is_Some (nodeAt pre node').
Proof.
  revert node node' pre. induction parts as [|part rest IH]; intros node node' pre W Hpre.
  - apply prefix_nil_inv in Hpre as ->. simpl. eauto.
  - destruct pre as [|k pre]; [simpl; eauto|].
    apply prefix_cons_inv_1 in Hpre as Hk. apply prefix_cons_inv_2 in Hpre. subst k.
    destruct (walk_cons_child _ _ _ _ W) as (child & child' & E' & W' & _).
    cbn [nodeAt]. rewrite E'. eauto.
Qed.

(** no chain of keys becomes a node unless it leads the walked parts *)
Lemma walk_no_new_node e parts node node' :
  walk parts node = Some node' -> nodeAt e node = None ->
  ~ e `prefix_of` parts -> nodeAt e node' = None.
Proof.
  revert parts node node'. induction e as [|k e IH]; intros parts node node' W Hn Hpre.
  - discriminate.
  - destruct parts as [|part rest]; [by injection W as <-|].
    cbn [nodeAt] in Hn |- *.
    destruct (string_dec k part) as [->|Hne].
    + destruct (walk_cons_child _ _ _ _ W) as (child & child' & E' & W' & Hc).
      rewrite E'. apply (IH _ _ _ W').
      * destruct Hc as [E|[E ->]].
        -- by rewrite E in Hn.
        -- destruct e; [|reflexivity]. exfalso. apply Hpre. by apply prefix_cons, prefix_nil.
      * intros Hp. apply Hpre. by apply prefix_cons.
    + by rewrite (walk_cons_other _ _ _ _ _ W Hne).
Qed.

(** how a walk changes the keys of an existing node: not at all, or by
    the creation of the part that follows the chain leading to the node *)
Lemma walk_keys d parts node node' n :
  walk parts node = Some node' -> nodeAt d node = Some n ->
  exists n',
    nodeAt d node' = Some n'
    /\ (keys n' = keys n
        \/ exists k k1 k2,
             (d ++ [k]) `prefix_of` parts /\ ~ In k (keys n)
             /\ keys n = k1 ++ k2 /\ keys n' = k1 ++ k :: k2
             /\ (isArrayIndex k = false -> k2 = [])).
Proof.
  revert parts node node'. induction d as [|k0 d IH]; intros parts node node' W Hn.
  - injection Hn as <-. exists node'. split; [reflexivity|].
    destruct parts as [|part rest]; [injection W as <-; auto|].
    apply walk_cons_inv in W as [(child & child' & E & W & ->)|(child' & E & _ & W & ->)].
    + left. unfold keys. cbn [props]. apply putOwn_keys.
    + right. destruct (defineOwn_split part child' (props node)) as (p1 & p2 & H1 & H2 & H3).
      exists part, (map fst p1), (map fst p2). unfold keys. cbn [props].
      rewrite H2, H1, !map_app. repeat split.
      * apply prefix_cons, prefix_nil.
      * rewrite <- map_app, <- H1. by apply getOwn_None_iff.
      * intros Hi. by rewrite (H3 Hi).
  - destruct parts as [|part rest]; [injection W as <-; eauto|].
    cbn [nodeAt] in Hn |- *.
    destruct (string_dec k0 part) as [->|Hne].
    + destruct (walk_cons_child _ _ _ _ W) as (child & child' & E' & W' & Hc).
      rewrite E'. destruct Hc as [E|[E ->]]; [|by rewrite E in Hn].
      rewrite E in Hn. destruct (IH _ _ _ W' Hn) as (n' & Hn' & Hk).
      exists n'. split; [done|]. destruct Hk as [Hk|(k & k1 & k2 & Hp & Hrest)]; [auto|].
      right. exists k, k1, k2. split; [|done].
      change ((part :: d) ++ [k]) with (part :: (d ++ [k])). by apply prefix_cons.
    + rewrite (walk_cons_other _ _ _ _ _ W Hne). eauto.
Qed.

(** an existing node stays *)
Lemma walk_keeps_node d parts node node' :
  walk parts node = Some node' -> is_Some (nodeAt d node) -> is_Some (nodeAt d node').
Proof.
  intros W [n Hn]. destruct (walk_keys _ _ _ _ _ W Hn) as (n' & Hn' & _). eauto.
Qed.

(** ** All paths of [buildTree] *)

Lemma foldl_addPath_None l : foldl addPath None l = None.
Proof. induction l as [|p l IH]; [reflexivity | exact IH]. Qed.

Lemma foldl_addPath_cons t p l t' :
  foldl addPath (Some t) (p :: l) = Some t' ->
  exists t1, walk (split slash p) t = Some t1 /\ foldl addPath (Some t1) l = Some t'.
Proof.
  cbn [foldl addPath]. destruct (walk (split slash p) t) as [t1|]; [eauto|].
  by rewrite foldl_addPath_None.
Qed.

(** a property of trees kept by the walk of every path is kept by the loop *)
Lemma foldl_addPath_ind (I : Tree -> Prop) l t t' :
  foldl addPath (Some t) l = Some t' -> I t ->
  (forall p a b, In p l -> I a -> walk (split slash p) a = Some b -> I b) ->
  I t'.
Proof.
  revert t. induction l as [|p l IH]; intros t Hf Ht Hstep.
  - by injection Hf as <-.
  - apply foldl_addPath_cons in Hf as (t1 & W & Hf).
    apply (IH t1 Hf).
    + eapply Hstep; eauto. by left.
    + intros q a b Hq. apply Hstep. by right.
Qed.

Lemma foldl_addPath_app t l1 l2 t' :
  foldl addPath (Some t) (l1 ++ l2) = Some t' ->
  exists t1, foldl addPath (Some t) l1 = Some t1 /\ foldl addPath (Some t1) l2 = Some t'.
Proof.
  rewrite foldl_app. destruct (foldl addPath (Some t) l1) as [t1|]; [eauto|].
  by rewrite foldl_addPath_None.
Qed.

(** a later path cannot remove a node, an earlier one creates it *)
Lemma foldl_addPath_nodeAt t l t' path chain :
  foldl addPath (Some t) l = Some t' -> In path l -> leads chain path ->
  is_Some (nodeAt chain t').
Proof.
  unfold leads. intros Hb Hin Hl.
  apply in_split in Hin as (l1 & l2 & ->).
  apply foldl_addPath_app in Hb as (t1 & _ & Hb).
  apply foldl_addPath_cons in Hb as (t2 & W & Hb).
  apply (foldl_addPath_ind (fun t => is_Some (nodeAt chain t)) _ _ _ Hb).
  - by eapply walk_nodeAt_prefix.
  - intros q a b _ Ha Wq. by eapply walk_keeps_node.
Qed.

(** every chain of leading segments of every path is a node of the tree *)
Lemma buildTree_nodeAt filePaths tree path chain :
  buildTree filePaths = Some tree -> In path filePaths -> leads chain path ->
  is_Some (nodeAt chain tree).
Proof.
  unfold buildTree, leads. intros Hb Hin Hl.
  apply in_split in Hin as (l1 & l2 & ->).
  apply foldl_addPath_app in Hb as (t1 & _ & Hb).
  apply foldl_addPath_cons in Hb as (t2 & W & Hb).
  apply (foldl_addPath_ind (fun t => is_Some (nodeAt chain t)) _ _ _ Hb).
  - by eapply walk_nodeAt_prefix.
  - intros q a b _ Ha Wq. by eapply walk_keeps_node.
Qed.

(** a chain that leads no path is not a node of the tree *)
Lemma buildTree_no_node filePaths tree chain :
  buildTree filePaths = Some tree -> chain <> [] ->
  (forall path, In path filePaths -> ~ leads chain path) ->
  nodeAt chain tree = None.
Proof.
  unfold buildTree. intros Hb Hne Hno.
  apply (foldl_addPath_ind (fun t => nodeAt chain t = None) _ _ _ Hb).
  - destruct chain; [done | reflexivity].
  - intros q a b Hq Ha Wq.
    eapply walk_no_new_node; [exact Wq | exact Ha | by apply Hno].
Qed.

(** on paths without inherited names the walk and the loop complete *)
Lemma walk_total parts node :
  (forall part, In part parts -> inherited part = false) -> is_Some (walk parts node).
Proof.
  revert node. induction parts as [|part rest IH]; intros node H; [simpl; eauto|].
  cbn [walk]. assert (forall p, In p rest -> inherited p = false) as Hrest.
  { intros p Hp. apply H. by right. }
  destruct (getOwn part (props node)) as [child|].
  - destruct (IH child Hrest) as [c ->]. eauto.
  - rewrite (H part) by (by left). destruct (IH (Node []) Hrest) as [c ->]. eauto.
Qed.

Lemma foldl_addPath_total t l :
  (forall p, In p l -> plainPath p) -> is_Some (foldl addPath (Some t) l).
Proof.
  revert t. induction l as [|p l IH]; intros t H; [simpl; eauto|].
  cbn [foldl addPath].
  destruct (walk_total (split slash p) t) as [t1 ->]; [apply H; by left|].
  apply IH. intros q Hq. apply H. by right.
Qed.

Lemma prunedTree_total filePaths :
  (forall path, In path filePaths -> plainPath path) ->
  exists tree, prunedTree filePaths = Some tree.
Proof.
  intros H. unfold prunedTree, buildTree.
  destruct (foldl_addPath_total (Node []) filePaths H) as [t ->]. eauto.
Qed.

(** conversely, the walk completes only on such paths: a key is created
    only under a name that is not inherited, so no own key of a built tree
    is an inherited name *)
Lemma walk_Some_plain parts node node' :
  walk parts node = Some node' ->
  (forall chain, is_Some (nodeAt chain node) ->
                 forall seg, In seg chain -> inherited seg = false) ->
  forall part, In part parts -> inherited part = false.
Proof.
  revert node node'. induction parts as [|part rest IH]; intros node node' W HI p Hp.
  - destruct Hp.
  - apply walk_cons_inv in W as [(child & child' & E & W & _)|(child' & E & Hi & W & _)].
    + destruct Hp as [<-|Hp].
      * apply (HI [part]); [|by left]. cbn [nodeAt]. rewrite E. eauto.
      * apply (IH _ _ W); [|done]. intros chain Hc seg Hs.
        apply (HI (part :: chain)); [|by right]. cbn [nodeAt]. by rewrite E.
    + destruct Hp as [<-|Hp]; [done|].
      apply (IH _ _ W); [|done]. intros [|k chain] Hc seg Hs; [destruct Hs|].
      by destruct Hc.
Qed.

Lemma walk_keeps_plain parts node node' :
  walk parts node = Some node' ->
  (forall chain, is_Some (nodeAt chain node) ->
                 forall seg, In seg chain -> inherited seg = false) ->
  forall chain, is_Some (nodeAt chain node') ->
                forall seg, In seg chain -> inherited seg = false.
Proof.
  intros W HI chain Hc seg Hs.
  destruct (nodeAt chain node) as [n|] eqn:En; [apply (HI chain); [by rewrite En|done]|].
  destruct (decide (chain `prefix_of` parts)) as [[tl ->]|Hno].
  - apply (walk_Some_plain _ _ _ W HI). apply in_app_iff. by left.
  - rewrite (walk_no_new_node _ _ _ _ W En Hno) in Hc. by destruct Hc.
Qed.

Lemma foldl_addPath_plain t l t' :
  foldl addPath (Some t) l = Some t' ->
  (forall chain, is_Some (nodeAt chain t) ->
                 forall seg, In seg chain -> inherited seg = false) ->
  forall p, In p l -> plainPath p.
Proof.
  revert t. induction l as [|q l IH]; intros t Hf HI p Hp; [destruct Hp|].
  apply foldl_addPath_cons in Hf as (t1 & W & Hf).
  destruct Hp as [<-|Hp].
  - exact (walk_Some_plain _ _ _ W HI).
  - apply (IH t1 Hf); [|done]. exact (walk_keeps_plain _ _ _ W HI).
Qed.

(** [buildTree] yields a tree exactly on the path lists without inherited
    names *)
Lemma buildTree_Some_iff_plain filePaths :
  is_Some (buildTree filePaths) <-> forall path, In path filePaths -> plainPath path.
Proof.
  split.
  - intros [t Ht]. apply (foldl_addPath_plain _ _ _ Ht).
    intros [|k chain] Hc seg Hs; [destruct Hs | by destruct Hc].
  - apply foldl_addPath_total.
Qed.

(** ** Order of keys *)

Lemma keyBefore_sublist x y ks : keyBefore x y ks <-> [x; y] `sublist_of` ks.
Proof.
  unfold keyBefore. split.
  - intros (ka & kb & kc & ->).
    apply sublist_inserts_l, sublist_skip, sublist_inserts_l, sublist_skip, sublist_nil_l.
  - intros (ka & k2 & -> & (kb & kc & -> & _)%sublist_cons_l)%sublist_cons_l. eauto.
Qed.

(** a key created anywhere in the list leaves the order of the others *)
Lemma keyBefore_insert x y k k1 k2 :
  keyBefore x y (k1 ++ k2) -> keyBefore x y (k1 ++ k :: k2).
Proof.
  rewrite !keyBefore_sublist.
  intros (a & b & Hab & Ha & Hb)%sublist_app_r. rewrite Hab.
  apply sublist_app; [done|]. by apply sublist_cons.
Qed.

Lemma keyBefore_snoc x y ks : In x ks -> keyBefore x y (ks ++ [y]).
Proof.
  intros (ka & kb & ->)%in_split. exists ka, kb, []. by rewrite <- app_assoc.
Qed.

Lemma keyBefore_filter (f : string -> bool) x y ks :
  keyBefore x y ks -> f x = true -> f y = true -> keyBefore x y (List.filter f ks).
Proof.
  intros (ka & kb & kc & ->) Hx Hy.
  exists (List.filter f ka), (List.filter f kb), (List.filter f kc).
  rewrite List.filter_app. cbn [List.filter]. rewrite Hx.
  rewrite List.filter_app. cbn [List.filter]. by rewrite Hy.
Qed.

Lemma nodeAt_app d e t :
  nodeAt (d ++ e) t = match nodeAt d t with Some n => nodeAt e n | None => None end.
Proof.
  revert t. induction d as [|k d IH]; intros t; [reflexivity|].
  cbn [app nodeAt]. destruct (getOwn k (props t)); [apply IH | reflexivity].
Qed.

(** a key below a chain is a node exactly when it is a key of the node at
    the chain *)
Lemma nodeAt_snoc_Some d k t :
  is_Some (nodeAt (d ++ [k]) t) <-> exists n, nodeAt d t = Some n /\ In k (keys n).
Proof.
  rewrite nodeAt_app. destruct (nodeAt d t) as [n|].
  - cbn [nodeAt]. split.
    + intros H. exists n. split; [done|]. apply getOwn_Some_In.
      destruct (getOwn k (props n)); [eauto | by destruct H].
    + intros (? & [= <-] & [c Hc]%getOwn_Some_In). rewrite Hc. eauto.
  - split; [by intros [? ?] | by intros (? & ? & _)].
Qed.

Lemma nodeAt_snoc_None d k t n :
  nodeAt d t = Some n -> nodeAt (d ++ [k]) t = None -> ~ In k (keys n).
Proof.
  intros Hn Hk Hin.
  assert (is_Some (nodeAt (d ++ [k]) t)) as [? ?] by (apply nodeAt_snoc_Some; eauto).
  congruence.
Qed.

Lemma prefix_snoc_eq {B} (d : list B) x y l :
  (d ++ [x]) `prefix_of` l -> (d ++ [y]) `prefix_of` l -> x = y.
Proof.
  intros [r1 ->] [r2 H]. rewrite <- !app_assoc in H.
  apply app_inv_head in H. by injection H.
Qed.

(** the state the loop keeps once [x] is a key of the node at [d]: [x]
    stays, and [y] is either absent or behind [x] *)
Lemma walk_keeps_order d x y parts node node' n :
  isArrayIndex y = false ->
  walk parts node = Some node' -> nodeAt d node = Some n ->
  In x (keys n) -> keyBefore x y (keys n) \/ ~ In y (keys n) ->
  exists n', nodeAt d node' = Some n' /\ In x (keys n')
             /\ (keyBefore x y (keys n') \/ ~ In y (keys n')).
Proof.
  intros Hy W Hn Hx Hxy.
  destruct (walk_keys _ _ _ _ _ W Hn) as (n' & Hn' & Hk).
  exists n'. split; [done|].
  destruct Hk as [->|(k & k1 & k2 & _ & Hfresh & E & -> & Hend)]; [done|].
  rewrite E in Hx, Hxy, Hfresh. split.
  - apply in_app_iff in Hx. apply in_app_iff. simpl. tauto.
  - destruct Hxy as [Hb|Hny]; [left; by apply keyBefore_insert|].
    destruct (string_dec k y) as [->|Hne].
    + left. rewrite (Hend Hy) in Hx |- *. rewrite app_nil_r in Hx.
      by apply keyBefore_snoc.
    + right. rewrite in_app_iff in Hny |- *. simpl. tauto.
Qed.

(** in the built tree, a key that is not an array index comes after every
    key of the same node first met on an earlier path *)
Lemma buildTree_keyBefore before px later py d x y tree :
  buildTree (before ++ px :: later) = Some tree ->
  leads (d ++ [x]) px ->
  (forall q, In q before -> ~ leads (d ++ [y]) q) ->
  In py later -> leads (d ++ [y]) py ->
  x <> y -> isArrayIndex y = false ->
  exists dir, nodeAt d tree = Some dir /\ keyBefore x y (keys dir).
Proof.
  intros Hb Hx Hbefore Hin Hy Hne Hidx.
  apply foldl_addPath_app in Hb as (t1 & Hb1 & Hb).
  apply foldl_addPath_cons in Hb as (t2 & W & Hb).
  assert (nodeAt (d ++ [y]) t1 = None) as Hy1.
  { apply (buildTree_no_node before); [done | by destruct d | done]. }
  assert (nodeAt (d ++ [y]) t2 = None) as Hy2.
  { eapply walk_no_new_node; [exact W | exact Hy1 |].
    intros Hp. apply Hne. by eapply prefix_snoc_eq. }
  assert (is_Some (nodeAt (d ++ [x]) t2)) as Hx2 by (by eapply walk_nodeAt_prefix).
  apply nodeAt_snoc_Some in Hx2 as (n2 & Hn2 & Hxn2).
  assert (exists n, nodeAt d tree = Some n /\ In x (keys n)
                    /\ (keyBefore x y (keys n) \/ ~ In y (keys n)))
    as (n & Hn & _ & Hxy).
  { apply (foldl_addPath_ind
             (fun t => exists n, nodeAt d t = Some n /\ In x (keys n)
                                 /\ (keyBefore x y (keys n) \/ ~ In y (keys n)))
             _ _ _ Hb).
    - exists n2. repeat split; [done..|]. right. by eapply nodeAt_snoc_None.
    - intros q a b _ (na & Hna & Hxa & Hxya) Wq.
      by eapply walk_keeps_order. }
  exists n. split; [done|]. destruct Hxy as [|Hny]; [done|]. exfalso.
  assert (is_Some (nodeAt (d ++ [y]) tree)) as (n' & Hn' & Hyn)%nodeAt_snoc_Some
      by (by eapply foldl_addPath_nodeAt).
  congruence.
Qed.

(** ** Pruning *)

Lemma hasKey_cons name k c tl :
  hasKey name (Node ((k, c) :: tl))
  = String.eqb k name || hasKey name c || hasKey name (Node tl).
Proof. reflexivity. Qed.

Lemma removeKey_cons k c tl name :
  removeKeyRecursively (Node ((k, c) :: tl)) name
  = if String.eqb k name then removeKeyRecursively (Node tl) name
    else Node ((k, removeKeyRecursively c name)
                 :: props (removeKeyRecursively (Node tl) name)).
Proof. simpl. destruct (String.eqb k name); reflexivity. Qed.

Lemma removeKey_props ps name :
  removeKeyRecursively (Node ps) name
  = Node (map (fun kc => (fst kc, removeKeyRecursively (snd kc) name))
              (List.filter (fun kc => negb (String.eqb (fst kc) name)) ps)).
Proof.
  induction ps as [|[k c] tl IH]; [reflexivity|].
  rewrite removeKey_cons, IH. simpl.
  destruct (String.eqb k name); reflexivity.
Qed.

Lemma hasKey_removed name t :
  hasKey name (removeKeyRecursively t name) = false.
Proof.
  induction t as [ps IH] using Tree_ind_props.
  induction IH as [|[k c] tl Hc _ IHtl]; [reflexivity|].
  rewrite removeKey_cons. destruct (String.eqb k name) eqn:E; [exact IHtl|].
  cbn [snd] in Hc. by rewrite hasKey_cons, E, Hc, Node_props.
Qed.

Lemma hasKey_remove_other name other t :
  hasKey name t = false ->
  hasKey name (removeKeyRecursively t other) = false.
Proof.
  induction t as [ps IH] using Tree_ind_props.
  induction IH as [|[k c] tl Hc _ IHtl]; [reflexivity|].
  rewrite hasKey_cons, !orb_false_iff. intros [[Hk Hch] Htl].
  rewrite removeKey_cons. destruct (String.eqb k other); [auto|].
  cbn [snd] in Hc. by rewrite hasKey_cons, Hk, (Hc Hch), Node_props, (IHtl Htl).
Qed.

Lemma getOwn_hasKey name ps child :
  getOwn name ps = Some child -> hasKey name (Node ps) = true.
Proof.
  induction ps as [|[k c] tl IH]; [discriminate|].
  cbn [getOwn]. rewrite hasKey_cons. destruct (String.eqb k name); [done|].
  intros H. rewrite (IH H). by rewrite orb_true_r.
Qed.

Lemma getOwn_child_hasKey name k ps child :
  getOwn k ps = Some child -> hasKey name child = true ->
  hasKey name (Node ps) = true.
Proof.
  induction ps as [|[k' c] tl IH]; [discriminate|].
  cbn [getOwn]. rewrite hasKey_cons. destruct (String.eqb k' k).
  - intros [= ->] ->. by rewrite orb_true_r.
  - intros H1 H2. rewrite (IH H1 H2). by rewrite orb_true_r.
Qed.

(** a chain of own keys that ends in [name] is seen by [hasKey] *)
Lemma nodeAt_hasKey name d t :
  is_Some (nodeAt (d ++ [name]) t) -> hasKey name t = true.
Proof.
  revert t. induction d as [|k d IH]; intros [ps]; simpl.
  - destruct (getOwn name ps) eqn:E; [|by intros [? ?]].
    intros _. by eapply getOwn_hasKey.
  - destruct (getOwn k ps) eqn:E; [|by intros [? ?]].
    intros H. eapply getOwn_child_hasKey; eauto.
Qed.

Lemma keys_removeKey t name :
  keys (removeKeyRecursively t name)
  = List.filter (fun k => negb (String.eqb k name)) (keys t).
Proof.
  destruct t as [ps]. rewrite removeKey_props. unfold keys. cbn [props].
  induction ps as [|[k c] tl IH]; [reflexivity|].
  cbn [List.filter map fst]. destruct (String.eqb k name); simpl; by rewrite IH.
Qed.

Lemma getOwn_removeKey t name k :
  k <> name ->
  getOwn k (props (removeKeyRecursively t name))
  = option_map (fun c => removeKeyRecursively c name) (getOwn k (props t)).
Proof.
  intros Hne. destruct t as [ps]. rewrite removeKey_props. cbn [props].
  induction ps as [|[k' c] tl IH]; [reflexivity|].
  cbn [List.filter map fst snd getOwn].
  destruct (String.eqb_spec k' name) as [->|Hk']; cbn [negb].
  - destruct (String.eqb_spec name k); [congruence | exact IH].
  - cbn [map getOwn fst snd]. destruct (String.eqb k' k); [reflexivity | exact IH].
Qed.

Lemma nodeAt_removeKey d t name :
  ~ In name d ->
  nodeAt d (removeKeyRecursively t name)
  = option_map (fun n => removeKeyRecursively n name) (nodeAt d t).
Proof.
  revert t. induction d as [|k d IH]; intros t Hd; [reflexivity|].
  cbn [nodeAt]. rewrite getOwn_removeKey by (intros ->; apply Hd; by left).
  destruct (getOwn k (props t)) as [c|]; [|reflexivity].
  cbn [option_map]. apply IH. intros H. apply Hd. by right.
Qed.

Lemma nodeAt_pruneBuiltins d t :
  (forall seg, In seg d -> ~ In seg builtinIgnores) ->
  nodeAt d (pruneBuiltins t) = option_map pruneBuiltins (nodeAt d t).
Proof.
  intros Hd. unfold pruneBuiltins.
  rewrite !nodeAt_removeKey; [by destruct (nodeAt d t) | ..];
    intros H; apply (Hd _ H); simpl; auto.
Qed.

Lemma keyBefore_pruneBuiltins x y n :
  keyBefore x y (keys n) -> ~ In x builtinIgnores -> ~ In y builtinIgnores ->
  keyBefore x y (keys (pruneBuiltins n)).
Proof.
  intros Hb Hx Hy. unfold pruneBuiltins. rewrite !keys_removeKey.
  repeat apply keyBefore_filter; try done;
    apply negb_true_iff, String.eqb_neq; intros ->; simpl in *; tauto.
Qed.

(** ** Lines of entries and of nodes below *)

Lemma treeToString_from n indent ps index :
  (fix each (index : nat) (ps : list (string * Tree)) : list string :=
     match ps with
     | [] => []
     | (key, children) :: tl =>
         let isLast := Nat.eqb index (n - 1) in
         let prefix := if isLast then indent +:+ lastConnector
                       else indent +:+ midConnector in
         ((prefix +:+ key)
            :: (if Nat.ltb 0 (length (props children))
                then treeToString children
                       (indent +:+ (if isLast then lastPad else midPad))
                else []))
           ++ each (S index) tl
     end) index ps
  = concat (imap (fun j => lineGroup n indent (index + j)) ps).
Proof.
  revert index. induction ps as [|[key children] tl IH]; intros index; [reflexivity|].
  rewrite IH. cbn [imap concat]. f_equal.
  - unfold lineGroup, connector, pad. cbn [fst snd].
    rewrite Nat.add_0_r. destruct (Nat.eqb index (n - 1)).
    + by rewrite append_assoc.
    + by rewrite append_assoc.
  - f_equal. apply imap_ext. intros j kc _. simpl. f_equal. lia.
Qed.

Lemma treeToString_Node ps indent :
  treeToString (Node ps) indent = concat (imap (lineGroup (length ps) indent) ps).
Proof. cbn [treeToString]. by rewrite treeToString_from. Qed.

Lemma lineGroup_cons n indent i k c :
  lineGroup n indent i (k, c)
  = (indent +:+ connector i n +:+ k)
      :: (if Nat.ltb 0 (length (props c)) then treeToString c (indent +:+ pad i n)
          else []).
Proof. reflexivity. Qed.

Lemma connector_cases i n : In (connector i n) [lastConnector; midConnector].
Proof. unfold connector. destruct (Nat.eqb i (n - 1)); simpl; auto. Qed.

(** the lines of a node, cut around one of its entries *)
Lemma treeToString_entry pa k c pb indent :
  exists before after,
    treeToString (Node (pa ++ (k, c) :: pb)) indent
    = before
        ++ lineGroup (length (pa ++ (k, c) :: pb)) indent (length pa) (k, c)
        ++ after
    /\ after
       = concat (imap (fun j => lineGroup (length (pa ++ (k, c) :: pb)) indent
                                  (S (length pa + j))) pb).
Proof.
  rewrite treeToString_Node, imap_app, imap_cons, concat_app.
  cbn [concat]. rewrite Nat.add_0_r.
  eexists _, _. split; [reflexivity|].
  f_equal. apply imap_ext. intros j e _. simpl. f_equal. lia.
Qed.

(** every key of a node has its line among the lines of the node *)
Lemma treeToString_key_line t indent k :
  In k (keys t) ->
  exists c, In c [lastConnector; midConnector]
            /\ In (indent +:+ c +:+ k) (treeToString t indent).
Proof.
  destruct t as [ps]. unfold keys. cbn [props].
  intros ([k' c] & <- & (pa & pb & ->)%in_split)%in_map_iff. cbn [fst].
  destruct (treeToString_entry pa k' c pb indent) as (b & a & -> & _).
  eexists. split; [apply connector_cases|].
  rewrite lineGroup_cons. apply in_app_iff. right. left. reflexivity.
Qed.

(** the lines of a child that has keys are a block of the lines of its
    parent *)
Lemma treeToString_child_block t indent k child :
  getOwn k (props t) = Some child -> props child <> [] ->
  exists ind pre post,
    treeToString t indent = pre ++ treeToString child ind ++ post.
Proof.
  destruct t as [ps]. cbn [props]. intros (pa & pb & ->)%getOwn_split Hne.
  destruct (treeToString_entry pa k child pb indent) as (b & a & -> & _).
  rewrite lineGroup_cons.
  assert (Nat.ltb 0 (length (props child)) = true) as ->.
  { apply Nat.ltb_lt. destruct (props child); [done | simpl; lia]. }
  eexists _, (b ++ [_]), a. rewrite <- !app_assoc. reflexivity.
Qed.

(** the lines of any node that has keys are a block of the output *)
Lemma treeToString_block d t indent dir :
  nodeAt d t = Some dir -> props dir <> [] ->
  exists ind pre post, treeToString t indent = pre ++ treeToString dir ind ++ post.
Proof.
  revert t indent. induction d as [|k d IH]; intros t indent Hd Hne.
  - injection Hd as <-. exists indent, [], []. by rewrite app_nil_r.
  - cbn [nodeAt] in Hd. destruct (getOwn k (props t)) as [child|] eqn:E; [|discriminate].
    assert (props child <> []) as Hc.
    { destruct d as [|k' d]; [by injection Hd as <-|].
      cbn [nodeAt] in Hd. destruct (props child); [discriminate | done]. }
    destruct (treeToString_child_block t indent k child E Hc) as (ind & pre & post & ->).
    destruct (IH child ind Hd Hne) as (ind' & pre' & post' & ->).
    exists ind', (pre ++ pre'), (post' ++ post). by rewrite <- !app_assoc.
Qed.

Lemma keys_In_props t k : In k (keys t) -> props t <> [].
Proof. unfold keys. by destruct (props t). Qed.

(** a node below the root has its line in the output *)
Lemma nodeAt_rendersNode d k t :
  is_Some (nodeAt (d ++ [k]) t) -> rendersNode t d k.
Proof.
  intros H. split; [done|].
  apply nodeAt_snoc_Some in H as (dir & Hd & Hk).
  destruct (treeToString_block d t "" dir Hd (keys_In_props _ _ Hk))
    as (ind & pre & post & ->).
  destruct (treeToString_key_line dir ind k Hk) as (c & Hc & Hl).
  exists ind, c. split; [|done]. rewrite !in_app_iff. tauto.
Qed.

(** a node whose key [x] comes before its key [y] renders the line of [x]
    before the line of [y] *)
Lemma keyBefore_lines dir ind x y :
  keyBefore x y (keys dir) ->
  exists la lb lc cx cy,
    treeToString dir ind = la ++ (ind +:+ cx +:+ x) :: lb ++ (ind +:+ cy +:+ y) :: lc
    /\ In cx [lastConnector; midConnector] /\ In cy [lastConnector; midConnector].
Proof.
  destruct dir as [ps]. unfold keys. cbn [props]. intros (ka & kb & kc & H).
  apply map_eq_app in H as (pa & p1 & -> & _ & H).
  apply map_eq_cons in H as ([x' c1] & p2 & -> & Hx & H). cbn [fst] in Hx. subst x'.
  apply map_eq_app in H as (pb & p3 & -> & _ & H).
  apply map_eq_cons in H as ([y' c2] & pc & -> & Hy & _). cbn [fst] in Hy. subst y'.
  destruct (treeToString_entry pa x c1 (pb ++ (y, c2) :: pc) ind) as (b & a & -> & ->).
  rewrite imap_app, imap_cons, concat_app. cbn [concat].
  rewrite !lineGroup_cons.
  match goal with
  | |- context [ b ++ (?lx :: ?chx) ++ ?mid ++ (?ly :: ?chy) ++ ?rest ] =>
      exists b, (chx ++ mid), (chy ++ rest)
  end.
  eexists _, _. split; [|split; apply connector_cases].
  cbn [app]. by rewrite <- !app_assoc.
Qed.

(** ** Enumeration order of the keys of every node *)

Lemma enumerated_weaken lo lo' ks :
  (lo' <= lo)%N -> enumerated lo ks = true -> enumerated lo' ks = true.
Proof.
  destruct ks as [|k tl]; [done|]. cbn [enumerated].
  destruct (arrayIndex k) as [n|]; [|done].
  rewrite !andb_true_iff, !N.leb_le. intros ? [? ?]. split; [lia | done].
Qed.

Lemma enumerated_others lo ks :
  forallb (fun k' => negb (isArrayIndex k')) ks = true -> enumerated lo ks = true.
Proof.
  destruct ks as [|k tl]; [done|]. cbn [forallb enumerated]. unfold isArrayIndex at 1.
  destruct (arrayIndex k); [done|]. by intros H.
Qed.

Lemma enumerated_insertIndex {A} lo n key (v : A) ps :
  arrayIndex key = Some n -> (lo <= n)%N ->
  enumerated lo (map fst ps) = true ->
  enumerated lo (map fst (insertIndex n key v ps)) = true.
Proof.
  intros Hk. revert lo. induction ps as [|[k w] tl IH]; intros lo Hlo H.
  - cbn. rewrite Hk. by rewrite andb_true_r, N.leb_le.
  - cbn [insertIndex]. cbn [map fst enumerated] in H.
    destruct (arrayIndex k) as [m|] eqn:Ek.
    + apply andb_true_iff in H as [H1 H2].
      destruct (N.ltb_spec m n) as [Hlt|Hge].
      * cbn [map fst enumerated]. rewrite Ek, H1. apply IH; [lia | done].
      * cbn [map fst enumerated]. rewrite Hk, Ek, H2.
        rewrite !andb_true_iff, !N.leb_le. auto.
    + cbn [map fst enumerated]. rewrite Hk, Ek, H.
      by rewrite andb_true_r, N.leb_le.
Qed.

Lemma enumerated_snoc lo ks key :
  arrayIndex key = None -> enumerated lo ks = true ->
  enumerated lo (ks ++ [key]) = true.
Proof.
  intros Hk. revert lo. induction ks as [|k tl IH]; intros lo H.
  - cbn. by rewrite Hk.
  - cbn [app enumerated] in H |- *. destruct (arrayIndex k) as [n|].
    + apply andb_true_iff in H as [H1 H2]. by rewrite H1, IH.
    + rewrite forallb_app, H. cbn. unfold isArrayIndex. by rewrite Hk.
Qed.

Lemma enumerated_defineOwn {A} key (v : A) ps :
  enumerated 0 (map fst ps) = true ->
  enumerated 0 (map fst (defineOwn key v ps)) = true.
Proof.
  intros H. unfold defineOwn. destruct (arrayIndex key) as [n|] eqn:Ek.
  - apply enumerated_insertIndex; [done | lia | done].
  - rewrite map_app. by apply enumerated_snoc.
Qed.

Lemma enumerated_filter (f : string -> bool) lo ks :
  enumerated lo ks = true -> enumerated lo (List.filter f ks) = true.
Proof.
  revert lo. induction ks as [|k tl IH]; intros lo H; [done|].
  cbn [List.filter enumerated] in H |- *.
  destruct (arrayIndex k) as [n|] eqn:Ek.
  - apply andb_true_iff in H as [H1 H2]. destruct (f k).
    + cbn [enumerated]. by rewrite Ek, H1, IH.
    + apply (enumerated_weaken n); [by apply N.leb_le | by apply IH].
  - assert (forallb (fun k' => negb (isArrayIndex k')) (List.filter f tl) = true) as Hf.
    { apply forallb_forall. intros k' [Hk' _]%filter_In.
      by apply (proj1 (forallb_forall _ _) H). }
    destruct (f k); [cbn [enumerated]; by rewrite Ek | by apply enumerated_others].
Qed.

Lemma wellEnumerated_Node ps :
  wellEnumerated (Node ps)
  = enumerated 0 (map fst ps) && forallb (fun kc => wellEnumerated (snd kc)) ps.
Proof.
  cbn [wellEnumerated]. f_equal.
  induction ps as [|[k c] tl IH]; [reflexivity|]. cbn [forallb snd]. by rewrite IH.
Qed.

Lemma forallb_putOwn {A} (f : A -> bool) key v (ps : list (string * A)) :
  forallb (fun kc => f (snd kc)) ps = true -> f v = true ->
  forallb (fun kc => f (snd kc)) (putOwn key v ps) = true.
Proof.
  intros H Hv. induction ps as [|[k w] tl IH]; [done|].
  cbn [forallb snd] in H. apply andb_true_iff in H as [Hw Htl].
  cbn [putOwn]. destruct (String.eqb k key); cbn [forallb snd].
  - by rewrite Hv, Htl.
  - by rewrite Hw, IH.
Qed.

Lemma wellEnumerated_walk parts node node' :
  walk parts node = Some node' -> wellEnumerated node = true ->
  wellEnumerated node' = true.
Proof.
  revert node node'. induction parts as [|part rest IH]; intros node node' W H.
  - by injection W as <-.
  - destruct node as [ps]. rewrite wellEnumerated_Node in H.
    apply andb_true_iff in H as [Hk Hc].
    apply walk_cons_inv in W as [(child & child' & E & W & ->)|(child' & E & _ & W & ->)];
      cbn [props] in *; rewrite wellEnumerated_Node; apply andb_true_iff.
    + rewrite putOwn_keys. split; [done|].
      apply forallb_putOwn; [done|]. apply (IH _ _ W).
      apply getOwn_split in E as (pa & pb & ->).
      apply (proj1 (forallb_forall _ _) Hc (part, child)).
      apply in_app_iff. right. by left.
    + split; [by apply enumerated_defineOwn|].
      destruct (defineOwn_split part child' ps) as (p1 & p2 & -> & -> & _).
      rewrite forallb_app in Hc |- *. apply andb_true_iff in Hc as [-> Hc].
      cbn [forallb snd]. rewrite Hc, (IH _ _ W); done.
Qed.

Lemma wellEnumerated_removeKey t name :
  wellEnumerated t = true -> wellEnumerated (removeKeyRecursively t name) = true.
Proof.
  induction t as [ps IH] using Tree_ind_props.
  rewrite removeKey_props, !wellEnumerated_Node, !andb_true_iff. intros [Hk Hc]. split.
  - pose proof (keys_removeKey (Node ps) name) as E. rewrite removeKey_props in E.
    unfold keys in E. cbn [props] in E. rewrite E. by apply enumerated_filter.
  - apply forallb_forall. intros [k c] ([k0 c0] & [= <- <-] & [Hin _]%filter_In)%in_map_iff.
    cbn [snd fst]. apply (proj1 (List.Forall_forall _ _) IH (k0, c0) Hin).
    apply (proj1 (forallb_forall _ _) Hc (k0, c0) Hin).
Qed.

(** every node of the rendered tree enumerates its array-index keys first,
    in ascending numeric order *)
Lemma prunedTree_wellEnumerated filePaths tree :
  prunedTree filePaths = Some tree -> wellEnumerated tree = true.
Proof.
  unfold prunedTree, buildTree.
  destruct (foldl addPath (Some (Node [])) filePaths) as [t|] eqn:Hb; [|discriminate].
  intros [= <-]. unfold pruneBuiltins. do 3 apply wellEnumerated_removeKey.
  apply (foldl_addPath_ind (fun t => wellEnumerated t = true) _ _ _ Hb); [reflexivity|].
  intros p a b _ Ha W. by eapply wellEnumerated_walk.
Qed.

(** ** The filter loop *)

Lemma filter_loop_acc ignoreFolders projectFiles acc :
  foldl (fun filePaths relPath =>
           if bool_decide (firstPart relPath ∈ ignoreFolders) then filePaths
           else filePaths ++ [relPath]) acc projectFiles
  = acc ++ List.filter (retained ignoreFolders) projectFiles.
Proof.
  revert acc. induction projectFiles as [|p tl IH]; intros acc; simpl.
  - by rewrite app_nil_r.
  - rewrite IH. unfold retained at 2.
    destruct (bool_decide (firstPart p ∈ ignoreFolders)); simpl; [done|].
    by rewrite <- app_assoc.
Qed.

Lemma filterPaths_filter ignoreFolders projectFiles :
  filterPaths ignoreFolders projectFiles
  = List.filter (retained ignoreFolders) projectFiles.
Proof. unfold filterPaths. by rewrite filter_loop_acc. Qed.

Lemma elem_of_addBuiltins (userIgnores : gset string) name :
  name ∈ addBuiltins userIgnores <-> name ∈ userIgnores \/ In name builtinIgnores.
Proof.
  unfold addBuiltins, builtinIgnores. simpl.
  rewrite !elem_of_union, !elem_of_singleton. intuition.
Qed.

Lemma filter_sublist {A} (f : A -> bool) (l : list A) : List.filter f l `sublist_of` l.
Proof.
  induction l as [|x l IH]; simpl; [constructor|].
  destruct (f x); by constructor.
Qed.

Lemma filter_all_ignored ignoreFolders projectFiles :
  (forall p, In p projectFiles -> firstPart p ∈ ignoreFolders) ->
  filterPaths ignoreFolders projectFiles = [].
Proof.
  intros H. rewrite filterPaths_filter.
  induction projectFiles as [|p l IH]; [reflexivity|].
  cbn [List.filter]. unfold retained at 1.
  rewrite bool_decide_eq_true_2 by (apply H; by left).
  apply IH. intros q Hq. apply H. by right.
Qed.

(** the ignore names collected from a selection are the first segments
    of its paths *)
Lemma elem_of_ignore_loop (files : list string) (acc : gset string) name :
  name ∈ foldl (fun acc path => {[ firstPart path ]} ∪ acc) acc files
  <-> name ∈ acc \/ exists path, In path files /\ name = firstPart path.
Proof.
  revert acc. induction files as [|p l IH]; intros acc; cbn [foldl].
  - split; [auto | by intros [?|(? & [] & _)]].
  - rewrite IH, elem_of_union, elem_of_singleton. split.
    + intros [[->|?]|(q & Hq & ->)]; [right; exists p; simpl; auto | auto |].
      right. exists q. simpl. auto.
    + intros [?|(q & [<-|Hq] & ->)]; [auto | auto |]. right. eauto.
Qed.

Lemma elem_of_ignoreFoldersOf ignoreFiles name :
  name ∈ ignoreFoldersOf ignoreFiles
  <-> exists files path,
        ignoreFiles = Some files /\ In path files /\ name = firstPart path.
Proof.
  destruct ignoreFiles as [files|]; cbn [ignoreFoldersOf].
  - rewrite elem_of_ignore_loop. split.
    + intros [H|(p & Hp & ->)]; [by apply not_elem_of_empty in H | eauto].
    + intros (? & p & [= <-] & Hp & ->). eauto.
  - split; [by intros H%not_elem_of_empty | by intros (? & ? & ? & _)].
Qed.

Lemma elem_of_ignoreFoldersOfList ignoreFoldersList name :
  name ∈ ignoreFoldersOfList ignoreFoldersList
  <-> exists files path,
        In (Some files) ignoreFoldersList /\ In path files /\ name = firstPart path.
Proof.
  unfold ignoreFoldersOfList.
  assert (forall acc : gset string,
            name ∈ foldl (fun acc files =>
                            match files with
                            | Some fs => foldl (fun acc' path => {[ firstPart path ]} ∪ acc') acc fs
                            | None => acc
                            end) acc ignoreFoldersList
            <-> name ∈ acc
                \/ exists files path,
                     In (Some files) ignoreFoldersList /\ In path files
                     /\ name = firstPart path) as H.
  { induction ignoreFoldersList as [|[fs|] l IH]; intros acc; cbn [foldl].
    - split; [auto | by intros [?|(? & ? & [] & _)]].
    - rewrite IH, elem_of_ignore_loop. split.
      + intros [[?|(p & Hp & ->)]|(fs' & p & Hin & Hp & ->)]; [auto|..].
        * right. exists fs, p. simpl. auto.
        * right. exists fs', p. simpl. auto.
      + intros [?|(fs' & p & [[= <-]|Hin] & Hp & ->)]; [auto|eauto|].
        right. eauto.
    - rewrite IH. split.
      + intros [?|(fs' & p & Hin & Hp & ->)]; [auto|]. right. exists fs', p. simpl. auto.
      + intros [?|(fs' & p & [[=]|Hin] & Hp & ->)]; [auto|]. right. eauto. }
  rewrite H. split; [intros [H0%not_elem_of_empty|]; [done|done] | auto].
Qed.

(** ** C1: the scenario of the specification *)

(** C1, as stated, fails: the paths are not stripped of the root folder, so
    the structure text is not the five lines and "proj" is a key of the
    top-level node. *)
Lemma scenario_is_not_five_lines :
  structureOf (handlePreview (Some scenarioPaths) None) <> Some (join nl fiveLines)
  /\ exists tree,
       buildTree (filterPaths (addBuiltins ∅) scenarioPaths) = Some tree
       /\ In "proj" (keys tree).
Proof.
  split.
  - vm_compute. discriminate.
  - eexists. split; [vm_compute; reflexivity | simpl; auto].
Qed.

(** C1 (amended): on the scenario input the handler produces six lines: the
    root name, then the tree whose only top-level key is the root name
    again, with [src] and [README.md] one level below it; the
    [node_modules] entry is gone. *)
Theorem scenario_six_lines :
  handlePreview (Some scenarioPaths) None
    = Preview "proj" (join nl sixLines) (join nl sixLines)
  /\ prunedTree (filterPaths (addBuiltins ∅) scenarioPaths) = Some scenarioTree
  /\ keys scenarioTree = ["proj"].
Proof. repeat split; vm_compute; reflexivity. Qed.

(** ** C2: the path filter *)

(** C2: a path is retained exactly when its first segment is neither a
    user ignore name nor one of the three built-in names; the retained
    paths are the input with the other paths struck out, order kept. *)
Theorem filter_retains_iff (userIgnores : gset string) (projectFiles : list string) :
  let filePaths := filterPaths (addBuiltins userIgnores) projectFiles in
  (forall relPath,
      In relPath filePaths <->
      In relPath projectFiles
      /\ ~ (firstPart relPath ∈ userIgnores \/ In (firstPart relPath) builtinIgnores))
  /\ filePaths `sublist_of` projectFiles
  /\ filePaths
      = List.filter (fun relPath =>
                       negb (bool_decide (firstPart relPath ∈ userIgnores
                                          \/ In (firstPart relPath) builtinIgnores)))
                    projectFiles.
Proof.
  cbv zeta. rewrite filterPaths_filter. split; [|split].
  - intros relPath. rewrite filter_In. unfold retained.
    rewrite negb_true_iff, bool_decide_eq_false, elem_of_addBuiltins. tauto.
  - apply filter_sublist.
  - apply filter_ext. intros relPath. unfold retained. f_equal.
    apply bool_decide_ext, elem_of_addBuiltins.
Qed.

(** ** C3: pruning at every depth *)

(** C3: after the three prunings none of the built-in names is a key at
    any depth (so no chain of keys of the final tree ends in one); the
    path "a/node_modules/b/c" leaves only the node "a"; and one pruning
    drops the entries whose key is the name, with their subtrees, and
    prunes the children of the others. *)
Theorem pruned_tree_has_no_builtin_key :
  (forall (filePaths : list string) (tree : Tree) (name : string),
      prunedTree filePaths = Some tree -> In name builtinIgnores ->
      hasKey name tree = false
      /\ forall d, nodeAt (d ++ [name]) tree = None)
  /\ prunedTree ["a/node_modules/b/c"] = Some (Node [("a", Node [])])
  /\ (forall (ps : list (string * Tree)) (name : string),
        removeKeyRecursively (Node ps) name
        = Node (map (fun kc => (fst kc, removeKeyRecursively (snd kc) name))
                    (List.filter (fun kc => negb (String.eqb (fst kc) name)) ps))).
Proof.
  split; [|split; [reflexivity | apply removeKey_props]].
  intros filePaths tree name Hp Hin.
  assert (hasKey name tree = false) as Hno.
  { unfold prunedTree in Hp. destruct (buildTree filePaths) as [t|]; [|discriminate].
    injection Hp as <-. unfold pruneBuiltins.
    destruct Hin as [<-|[<-|[<-|[]]]].
    - do 2 apply hasKey_remove_other. apply hasKey_removed.
    - apply hasKey_remove_other. apply hasKey_removed.
    - apply hasKey_removed. }
  split; [exact Hno|].
  intros d. destruct (nodeAt (d ++ [name]) tree) eqn:E; [|reflexivity].
  assert (hasKey name tree = true) by (eapply nodeAt_hasKey; rewrite E; eauto).
  congruence.
Qed.

Lemma pruned_tree_has_no_builtin_key_witness :
  hasKey "node_modules" (Node [("a", Node [])]) = false
  /\ forall d, nodeAt (d ++ ["node_modules"]) (Node [("a", Node [])]) = None.
Proof.
  apply (proj1 pruned_tree_has_no_builtin_key ["a/node_modules/b/c"]).
  - reflexivity.
  - simpl. auto.
Defined.

(** ** C4: the renderer *)

(** C4: the lines of a node are, key after key in enumeration order, the
    line [indent + connector + key] followed at once by the lines of the
    child, rendered with [indent + pad], when the child has keys; the
    connector and the pad are the last-sibling ones exactly at position
    [n - 1]; a node without keys gives no line. *)
Theorem treeToString_groups (tree : Tree) (indent : string) :
  let n := length (keys tree) in
  treeToString tree indent
  = concat (imap (fun i kc =>
                    (indent +:+ (if Nat.eqb i (n - 1) then "└── " else "├── ") +:+ fst kc)
                      :: (if Nat.ltb 0 (length (keys (snd kc)))
                          then treeToString (snd kc)
                                 (indent +:+ (if Nat.eqb i (n - 1) then "    " else "│   "))
                          else []))
                 (props tree))
  /\ (n = 0%nat -> treeToString tree indent = []).
Proof.
  destruct tree as [ps]. cbv zeta. split.
  - unfold keys. rewrite !length_map. cbn [props].
    cbn [treeToString]. rewrite treeToString_from.
    f_equal. apply imap_ext. intros i [k c] _. unfold lineGroup, connector, pad, keys.
    by rewrite length_map.
  - destruct ps; [reflexivity|discriminate].
Qed.

Lemma treeToString_groups_witness :
  treeToString (Node []) "" = [].
Proof. apply (proj2 (treeToString_groups (Node []) "")). reflexivity. Defined.

(** ** C5: order of siblings *)

(** C5, as stated, fails: "2" is met before "1", yet the line of "1"
    comes first, because array-index keys are enumerated in ascending
    numeric order. *)
Lemma numeric_names_render_in_numeric_order :
  exists tree,
    prunedTree (filterPaths (addBuiltins ∅) ["src/2"; "src/1"]) = Some tree
    /\ treeToString tree "" = ["└── src"; "    ├── 1"; "    └── 2"]
    /\ ~ rendersBefore tree ["src"] "2" "1".
Proof.
  eexists. split; [vm_compute; reflexivity|]. split; [vm_compute; reflexivity|].
  intros (dir & ind & Hd & (ka & kb & kc & Hk) & _).
  vm_compute in Hd. injection Hd as <-. unfold keys in Hk. cbn [props map fst] in Hk.
  destruct ka as [|a [|b [|c ka]]]; destruct kb as [|b' kb]; discriminate Hk.
Qed.

(** C5 (amended): when no segment of the paths names a member of
    [Object.prototype], the pipeline yields a tree in which a rendered
    sibling whose name is not an array index has its line after the line
    of every rendered sibling that was first met on an earlier path
    (rendered: no built-in name on the chain of the two); so names that
    are not array indices render in the order in which the paths first
    mention them, and "src/x.ts" before "src/y.ts" puts x.ts before y.ts.
    Every node of that tree lists its array-index keys first, in ascending
    numeric order. *)
Theorem siblings_render_in_first_seen_order
    (before later : list string) (px py : string)
    (d : list string) (x y : string) :
  (forall path, In path (before ++ px :: later) -> plainPath path) ->
  leads (d ++ [x]) px ->
  (forall q, In q before -> ~ leads (d ++ [y]) q) ->
  In py later -> leads (d ++ [y]) py ->
  x <> y ->
  isArrayIndex y = false ->
  (forall seg, In seg (d ++ [x; y]) -> ~ In seg builtinIgnores) ->
  exists tree,
    prunedTree (before ++ px :: later) = Some tree
    /\ rendersBefore tree d x y
    /\ wellEnumerated tree = true.
Proof.
  intros Hplainpaths Hx Hbefore Hin Hy Hne Hidx Hplain.
  destruct (prunedTree_total _ Hplainpaths) as [tree Hp].
  exists tree. split; [exact Hp|].
  split; [|by apply (prunedTree_wellEnumerated _ _ Hp)].
  unfold prunedTree in Hp.
  destruct (buildTree (before ++ px :: later)) as [t0|] eqn:Hb; [|discriminate].
  injection Hp as <-.
  destruct (buildTree_keyBefore _ _ _ _ _ _ _ _ Hb Hx Hbefore Hin Hy Hne Hidx)
    as (dir0 & Hd0 & Hk0).
  assert (nodeAt d (pruneBuiltins t0) = Some (pruneBuiltins dir0)) as Hd.
  { rewrite nodeAt_pruneBuiltins, Hd0; [reflexivity|].
    intros seg Hs. apply Hplain, in_app_iff. by left. }
  assert (keyBefore x y (keys (pruneBuiltins dir0))) as Hk.
  { apply keyBefore_pruneBuiltins; [done|..]; apply Hplain, in_app_iff; right; simpl; auto. }
  assert (props (pruneBuiltins dir0) <> []) as Hprops.
  { destruct Hk as (ka & kb & kc & Hk). apply (keys_In_props _ x).
    rewrite Hk, in_app_iff. right. by left. }
  destruct (treeToString_block d _ "" _ Hd Hprops) as (ind & pre & post & Hblock).
  exists (pruneBuiltins dir0), ind. repeat split; [done|done|eauto|].
  apply keyBefore_lines, Hk.
Qed.

Lemma siblings_render_in_first_seen_order_witness :
  exists tree,
    prunedTree ([] ++ "src/x.ts" :: ["src/y.ts"]) = Some tree
    /\ rendersBefore tree ["src"] "x.ts" "y.ts"
    /\ wellEnumerated tree = true.
Proof.
  apply (siblings_render_in_first_seen_order [] ["src/y.ts"] "src/x.ts" "src/y.ts").
  - intros path [<-|[<-|[]]] part Hpart; vm_compute in Hpart;
      repeat (destruct Hpart as [<-|Hpart]; [reflexivity|]); destruct Hpart.
  - by exists [].
  - intros q [].
  - simpl. auto.
  - by exists [].
  - discriminate.
  - reflexivity.
  - simpl. intros seg [<-|[<-|[<-|[]]]] [H|[H|[H|[]]]]; discriminate.
Defined.

(** ** C6: the preview *)

(** C6: with N the number of lines of the structure text, the preview is
    the first 100 lines and the line "... (truncated, total N lines)"
    when N exceeds 100, and the text itself otherwise; the structure kept
    by the handler is the join of all its lines and the preview is
    computed from it. *)
Theorem preview_truncation (structureText : string) :
  let lines := split newline structureText in
  let N := length lines in
  (100 < N ->
   previewOf structureText
   = join nl (take 100 lines ++ ["... (truncated, total " +:+ decimal N +:+ " lines)"]))
  /\ (N <= 100 -> previewOf structureText = structureText)
  /\ (forall userIgnores projectFiles rootFolder structure preview,
        handlePreviewWith userIgnores projectFiles = Preview rootFolder structure preview ->
        preview = previewOf structure
        /\ exists files tree,
             projectFiles = Some files
             /\ prunedTree (filterPaths (addBuiltins userIgnores) files) = Some tree
             /\ structure = join nl (rootFolder :: treeToString tree ""))
  /\ join nl lines = structureText.
Proof.
  cbv zeta. split; [|split; [|split]].
  - intros HN. unfold previewOf.
    apply Nat.ltb_lt in HN as HN'. rewrite HN'.
    rewrite join_snoc.
    + reflexivity.
    + destruct (split newline structureText) as [|x l]; [simpl in HN; lia|discriminate].
  - intros HN. unfold previewOf.
    apply Nat.ltb_ge in HN as HN'. rewrite HN'.
    rewrite take_ge by exact HN. apply join_split.
  - intros userIgnores projectFiles rootFolder structure preview.
    unfold handlePreviewWith.
    destruct projectFiles as [[|firstFile files]|]; try discriminate.
    destruct (prunedTree _) as [tree|] eqn:Hp; [|discriminate].
    intros [= <- <- <-]. split; [reflexivity|]. by exists (firstFile :: files), tree.
  - apply join_split.
Qed.

Lemma preview_truncation_witness :
  previewOf sample150
  = join nl (take 100 (split newline sample150)
               ++ ["... (truncated, total "
                     +:+ decimal (length (split newline sample150)) +:+ " lines)"])
  /\ previewOf "a" = "a".
Proof.
  split.
  - apply (proj1 (preview_truncation sample150)).
    apply Nat.ltb_lt. vm_compute. reflexivity.
  - apply (proj1 (proj2 (preview_truncation "a"))). simpl. lia.
Defined.

(** the scenario of the specification: 150 lines *)
Example preview_of_150_lines :
  length (split newline sample150) = 150%nat
  /\ previewOf sample150
     = join nl (take 100 (split newline sample150) ++ ["... (truncated, total 150 lines)"]).
Proof. split; vm_compute; reflexivity. Qed.

(** ** C7: the generated document *)

Lemma readmeContent_lines structure :
  split newline (readmeContent structure)
  = [heading; ""; "Below is the structure of the project:"; ""; fence]
      ++ split newline structure ++ [fence].
Proof.
  unfold readmeContent. rewrite !nl_append.
  rewrite split_append, split_sep_cons, split_append, split_sep_cons.
  rewrite split_append, split_append.
  reflexivity.
Qed.

Lemma handleGenerateReadme_inr structure rootFolderName :
  structure <> "" -> rootFolderName <> "" ->
  handleGenerateReadme structure rootFolderName = inr (readmeContent structure).
Proof.
  intros Hs Hr. unfold handleGenerateReadme.
  apply String.eqb_neq in Hs, Hr. by rewrite Hs, Hr.
Qed.

(** C7, as stated, fails: a project folder named by three backquotes gives
    a structure text whose first line is itself a fence line, and the
    document then holds three fence lines. *)
Lemma readme_with_three_fences :
  exists structure preview doc,
    handlePreview (Some ["```/a"]) None = Preview "```" structure preview
    /\ handleGenerateReadme structure "```" = inr doc
    /\ fenceLines doc = 3%nat.
Proof. do 3 eexists. repeat split; vm_compute; reflexivity. Qed.

(** C7 (amended): whenever the document is produced it is the fixed
    template around the structure text; its lines are the heading, an
    empty line, the sentence, an empty line, a fence, the lines of the
    structure text and a fence; so it has two fence lines more than the
    structure text, and exactly two when no line of the structure text is
    a fence line. *)
Theorem readme_is_template (structure rootFolderName doc : string) :
  handleGenerateReadme structure rootFolderName = inr doc ->
  doc = "# Project File and Folder Structure" +:+ nl +:+ nl
          +:+ "Below is the structure of the project:" +:+ nl +:+ nl
          +:+ "```" +:+ nl +:+ structure +:+ nl +:+ "```"
  /\ split newline doc
     = ["# Project File and Folder Structure"; "";
        "Below is the structure of the project:"; ""; "```"]
         ++ split newline structure ++ ["```"]
  /\ fenceLines doc = (2 + fenceLines structure)%nat
  /\ (fenceLines structure = 0%nat -> fenceLines doc = 2%nat).
Proof.
  unfold handleGenerateReadme.
  destruct (_ || _); [discriminate|]. intros [= <-].
  split; [reflexivity|]. split; [apply readmeContent_lines|].
  assert (fenceLines (readmeContent structure) = (2 + fenceLines structure)%nat) as H.
  { unfold fenceLines. rewrite readmeContent_lines.
    rewrite !List.filter_app, !length_app. simpl. lia. }
  split; [exact H|]. intros H0. by rewrite H, H0.
Qed.

Lemma readme_is_template_witness :
  fenceLines (readmeContent "proj") = 2%nat.
Proof.
  apply (proj2 (proj2 (proj2 (readme_is_template "proj" "proj" _ eq_refl)))).
  reflexivity.
Defined.

(** ** C8: when the handler stops *)

Lemma handlePreview_alert userIgnores projectFiles message :
  handlePreviewWith userIgnores projectFiles = Alert message <->
  (projectFiles = None \/ projectFiles = Some [])
  /\ message = "Please select a project folder.".
Proof.
  unfold handlePreviewWith. split.
  - destruct projectFiles as [[|firstFile files]|].
    + intros [= <-]. auto.
    + destruct (prunedTree _); discriminate.
    + intros [= <-]. auto.
  - intros [[->| ->] ->]; reflexivity.
Qed.

Lemma handlePreview_completes userIgnores firstFile files :
  (forall p, In p (firstFile :: files) -> plainPath p) ->
  exists structure,
    handlePreviewWith userIgnores (Some (firstFile :: files))
    = Preview (firstPart firstFile) structure (previewOf structure).
Proof.
  intros H. unfold handlePreviewWith, prunedTree, buildTree.
  destruct (foldl_addPath_total (Node [])
              (filterPaths (addBuiltins userIgnores) (firstFile :: files)))
    as [t ->]; [|eauto].
  intros p Hp. apply H. rewrite filterPaths_filter in Hp. by apply filter_In in Hp as [? _].
Qed.

(** the empty path, empty segments and a path without separator *)
Example degenerate_paths_complete :
  handlePreview (Some [""]) None = Preview "" (join nl [""; "└── "]) (join nl [""; "└── "])
  /\ handlePreview (Some ["a//b/"]) None
     = Preview "a" (join nl ["a"; "└── a"; "    └── "; "        └── b"; "            └── "])
         (join nl ["a"; "└── a"; "    └── "; "        └── b"; "            └── "])
  /\ handlePreview (Some ["README"]) None
     = Preview "README" (join nl ["README"; "└── README"]) (join nl ["README"; "└── README"]).
Proof. repeat split; vm_compute; reflexivity. Qed.

(** C8 at a path list the handler does not complete on: the segment
    "constructor" is not an own key of the tree, yet [node["constructor"]]
    is truthy, so no key is created and the walk goes on inside the
    [Object] function. *)
Theorem walk_leaves_tree_on_inherited_name :
  buildTree ["constructor/name/x/y"] = None
  /\ handlePreview (Some ["constructor/name/x/y"]) None = HostEscape "constructor".
Proof. split; vm_compute; reflexivity. Qed.

(** ** C9: user ignore names below the root *)

(** C9, as stated, fails: the path is retained and holds the user ignore
    name "dist" as a segment behind the first, but "dist" sits below a
    "node_modules" folder and is pruned with it. *)
Lemma user_ignored_name_pruned_below_builtin :
  exists tree,
    filterPaths (addBuiltins {[ "dist" ]}) ["proj/node_modules/dist/x"]
    = ["proj/node_modules/dist/x"]
    /\ prunedTree ["proj/node_modules/dist/x"] = Some tree
    /\ hasKey "dist" tree = false
    /\ ~ rendersNode tree ["proj"; "node_modules"] "dist"
    /\ structureOf (handlePreviewWith {[ "dist" ]} (Some ["proj/node_modules/dist/x"]))
       = Some (join nl ["proj"; "└── proj"]).
Proof.
  eexists. split; [vm_compute; reflexivity|]. split; [vm_compute; reflexivity|].
  split; [reflexivity|]. split; [|vm_compute; reflexivity].
  intros [[n Hn] _]. discriminate.
Qed.

(** C9 (amended): when no segment of a retained path names a member of
    [Object.prototype], the pipeline yields a tree in which, for every
    retained path, every chain of leading segments that holds none of the
    three built-in names is a node and has its line in the rendered
    output, whether or not its segments behind the first are user ignore
    names. *)
Theorem plain_segments_survive_pruning
    (userIgnores : gset string) (projectFiles : list string)
    (relPath : string) (d : list string) (name : string) :
  (forall path, In path projectFiles ->
                firstPart path ∉ addBuiltins userIgnores -> plainPath path) ->
  In relPath projectFiles ->
  firstPart relPath ∉ addBuiltins userIgnores ->
  leads (d ++ [name]) relPath ->
  (forall seg, In seg (d ++ [name]) -> ~ In seg builtinIgnores) ->
  exists tree,
    prunedTree (filterPaths (addBuiltins userIgnores) projectFiles) = Some tree
    /\ rendersNode tree d name.
Proof.
  intros Hplainpaths Hin Hret Hl Hplain.
  assert (forall path, In path (filterPaths (addBuiltins userIgnores) projectFiles) ->
                       In path projectFiles /\ firstPart path ∉ addBuiltins userIgnores)
    as Hfiltered.
  { intros path. rewrite filterPaths_filter, filter_In. unfold retained.
    by rewrite negb_true_iff, bool_decide_eq_false. }
  destruct (prunedTree_total (filterPaths (addBuiltins userIgnores) projectFiles))
    as [tree Hp].
  { intros path [H1 H2]%Hfiltered. by apply Hplainpaths. }
  exists tree. split; [exact Hp|].
  unfold prunedTree in Hp.
  destruct (buildTree _) as [t0|] eqn:Hb; [|discriminate]. injection Hp as <-.
  apply nodeAt_rendersNode. rewrite nodeAt_pruneBuiltins by done.
  assert (is_Some (nodeAt (d ++ [name]) t0)) as [n ->]; [|simpl; eauto].
  apply (buildTree_nodeAt _ _ relPath _ Hb); [|done].
  rewrite filterPaths_filter. apply filter_In. split; [done|].
  unfold retained. by apply negb_true_iff, bool_decide_eq_false.
Qed.

Lemma plain_segments_survive_pruning_witness :
  exists tree,
    prunedTree (filterPaths (addBuiltins {[ "dist" ]}) ["proj/src/dist/x.js"]) = Some tree
    /\ rendersNode tree ["proj"; "src"] "dist".
Proof.
  apply (plain_segments_survive_pruning {[ "dist" ]} ["proj/src/dist/x.js"]
           "proj/src/dist/x.js").
  - intros path [<-|[]] _ part Hpart; vm_compute in Hpart;
      repeat (destruct Hpart as [<-|Hpart]; [reflexivity|]); destruct Hpart.
  - simpl. auto.
  - intros [H|H]%elem_of_addBuiltins.
    + apply elem_of_singleton in H. discriminate.
    + simpl in H. destruct H as [H|[H|[H|[]]]]; discriminate.
  - by exists ["x.js"].
  - simpl. intros seg [<-|[<-|[<-|[]]]] [H|[H|[H|[]]]]; discriminate.
Defined.

(** ** C10: every path ignored *)

(** C10: when the first segment of every path is a user ignore name or a
    built-in name, no path is retained, the tree is empty, the handler
    signals nothing and the structure text is the single line holding the
    first segment of the first path. *)
Theorem all_ignored_gives_root_line
    (userIgnores : gset string) (firstFile : string) (files : list string) :
  (forall p, In p (firstFile :: files) ->
             firstPart p ∈ userIgnores \/ In (firstPart p) builtinIgnores) ->
  let rootFolder := firstPart firstFile in
  filterPaths (addBuiltins userIgnores) (firstFile :: files) = []
  /\ prunedTree [] = Some (Node [])
  /\ [rootFolder] ++ treeToString (Node []) "" = [rootFolder]
  /\ handlePreviewWith userIgnores (Some (firstFile :: files))
     = Preview rootFolder (join nl [rootFolder]) (previewOf rootFolder)
  /\ join nl [rootFolder] = rootFolder.
Proof.
  intros H rootFolder.
  assert (filterPaths (addBuiltins userIgnores) (firstFile :: files) = []) as Hf.
  { apply filter_all_ignored. intros p Hp. by apply elem_of_addBuiltins, H. }
  repeat split; [exact Hf|].
  unfold handlePreviewWith. by rewrite Hf.
Qed.

Lemma all_ignored_gives_root_line_witness :
  handlePreviewWith ∅ (Some ["node_modules/pkg/index.js"; ".git/config"])
  = Preview "node_modules" "node_modules" "node_modules".
Proof.
  apply (all_ignored_gives_root_line ∅ "node_modules/pkg/index.js" [".git/config"]).
  intros p [<-|[<-|[]]]; right; simpl; auto.
Defined.

(** * Further properties *)

(** ** Splitting and joining, for any separator *)

Lemma append_nil_r_any (a : string) : a +:+ "" = a.
Proof.
  induction a as [|x a IH]; [reflexivity|].
  by rewrite append_cons, IH.
Qed.

Lemma sep_append c s : String c "" +:+ s = String c s.
Proof. reflexivity. Qed.

Lemma lacks_append c a b : lacks c (a +:+ b) = lacks c a && lacks c b.
Proof.
  induction a as [|x a IH]; [reflexivity|].
  rewrite append_cons. cbn [lacks]. by rewrite IH, andb_assoc.
Qed.

Lemma split_lacks sep s : Forall (fun p => lacks sep p = true) (split sep s).
Proof.
  induction s as [|c s IH]; cbn [split]; [by constructor|].
  destruct (Ascii.eqb c sep) eqn:E; [by constructor|].
  destruct (split sep s) as [|p ps]; constructor.
  - cbn. by rewrite E.
  - constructor.
  - cbn [lacks]. rewrite E. by inversion IH.
  - by inversion IH.
Qed.

Lemma split_lacks_id sep s : lacks sep s = true -> split sep s = [s].
Proof.
  induction s as [|c s IH]; [reflexivity|]. cbn [lacks split].
  intros [Hc Hs]%andb_true_iff. apply negb_true_iff in Hc. by rewrite Hc, (IH Hs).
Qed.

Lemma join_split_any sep s : join (String sep "") (split sep s) = s.
Proof.
  induction s as [|c s IH]; [reflexivity|].
  cbn [split]. destruct (Ascii.eqb_spec c sep) as [->|Hc].
  - destruct (split sep s) as [|y l] eqn:E; [by apply split_not_nil in E|].
    rewrite join_cons, IH. reflexivity.
  - destruct (split sep s) as [|y l] eqn:E; [by apply split_not_nil in E|].
    by rewrite join_cons_String, IH.
Qed.

Lemma split_join sep ls :
  ls <> [] -> Forall (fun p => lacks sep p = true) ls ->
  split sep (join (String sep "") ls) = ls.
Proof.
  induction ls as [|x ls IH]; [done|]. intros _ H.
  inversion H as [|? ? Hx Hls]; subst.
  destruct ls as [|y ls]; [by apply split_lacks_id|].
  rewrite join_cons, sep_append, split_append, (split_lacks_id _ _ Hx), IH; done.
Qed.

(** the first piece of a split is what stands before the first separator *)
Lemma split_head sep s :
  exists rest,
    s = hd "" (split sep s) +:+ rest
    /\ (rest = "" \/ exists r, rest = String sep r).
Proof.
  pose proof (join_split_any sep s) as H.
  destruct (split sep s) as [|p [|q ps]] eqn:E; [by apply split_not_nil in E|..].
  - exists "". cbn in H |- *. subst p. split; [symmetry; apply append_nil_r_any | auto].
  - exists (String sep (join (String sep "") (q :: ps))). split; [|eauto].
    rewrite join_cons, sep_append in H. cbn [hd]. by rewrite H.
Qed.

(** ** The root folder name *)

(** X1: [getRootFolderName] gives the empty string for a selection without
    files and otherwise the part of the first path that stands before its
    first slash; the result never holds a slash. *)
Theorem getRootFolderName_first_segment (files : option (list string)) :
  lacks slash (getRootFolderName files) = true
  /\ (getFileCount files = 0%nat -> getRootFolderName files = "")
  /\ (forall firstFile others, files = Some (firstFile :: others) ->
        exists tail,
          firstFile = getRootFolderName files +:+ tail
          /\ (tail = "" \/ exists r, tail = String slash r)).
Proof.
  split; [|split].
  - destruct files as [[|f fs]|]; try reflexivity.
    cbn [getRootFolderName]. unfold firstPart.
    pose proof (split_lacks slash f) as H.
    destruct (split slash f) as [|p ps]; [reflexivity|]. by inversion H.
  - destruct files as [[|f fs]|]; [done | discriminate | done].
  - intros f fs ->. cbn [getRootFolderName]. apply split_head.
Qed.

Lemma getRootFolderName_first_segment_witness :
  exists tail,
    "proj/src/index.ts" = getRootFolderName (Some ["proj/src/index.ts"]) +:+ tail
    /\ (tail = "" \/ exists r, tail = String slash r).
Proof.
  apply (proj2 (proj2 (getRootFolderName_first_segment (Some ["proj/src/index.ts"])))
           "proj/src/index.ts" []).
  reflexivity.
Defined.

(** X2: the root folder name stored by [handlePreview] is the one
    [getRootFolderName] shows for the selection, and the structure text
    begins with it: it is that name alone or that name, a newline and the
    lines of the tree. *)
Theorem preview_root_is_selection_root
    (userIgnores : gset string) (projectFiles : option (list string))
    (rootFolder structureText preview : string) :
  handlePreviewWith userIgnores projectFiles = Preview rootFolder structureText preview ->
  rootFolder = getRootFolderName projectFiles
  /\ exists rest,
       structureText = rootFolder +:+ rest
       /\ (rest = "" \/ exists r, rest = String newline r).
Proof.
  unfold handlePreviewWith.
  destruct projectFiles as [[|firstFile files]|]; try discriminate.
  destruct (prunedTree _) as [tree|]; [|discriminate].
  intros [= <- <- _]. split; [reflexivity|].
  cbn [app]. destruct (treeToString tree "") as [|l ls].
  - exists "". split; [|auto]. cbn. by rewrite append_nil_r_any.
  - exists (String newline (join nl (l :: ls))). split; [reflexivity | eauto].
Qed.

Lemma preview_root_is_selection_root_witness :
  "README" = getRootFolderName (Some ["README"])
  /\ exists rest,
       join nl ["README"; "└── README"] = "README" +:+ rest
       /\ (rest = "" \/ exists r, rest = String newline r).
Proof.
  apply (preview_root_is_selection_root ∅ (Some ["README"]) _ _
           (join nl ["README"; "└── README"])).
  vm_compute. reflexivity.
Defined.

(** ** The filter on a selection with one root folder *)

(** X3: when all paths start with the same folder name, as the paths of
    one selected folder do, the filter keeps every path or none: none
    exactly when that name is a user ignore name or a built-in name. *)
Theorem filter_is_all_or_nothing
    (userIgnores : gset string) (projectFiles : list string) (root : string) :
  (forall p, In p projectFiles -> firstPart p = root) ->
  filterPaths (addBuiltins userIgnores) projectFiles
  = if bool_decide (root ∈ userIgnores \/ In root builtinIgnores)
    then [] else projectFiles.
Proof.
  intros H. rewrite filterPaths_filter.
  assert (forall p, In p projectFiles ->
            retained (addBuiltins userIgnores) p
            = negb (bool_decide (root ∈ userIgnores \/ In root builtinIgnores))) as Hr.
  { intros p Hp. unfold retained. rewrite (H p Hp). f_equal.
    apply bool_decide_ext, elem_of_addBuiltins. }
  destruct (bool_decide (root ∈ userIgnores \/ In root builtinIgnores));
    cbn [negb] in Hr; clear H; induction projectFiles as [|p l IH]; try reflexivity;
    cbn [List.filter]; rewrite (Hr p) by (by left).
  - apply IH. intros q Hq. apply Hr. by right.
  - f_equal. apply IH. intros q Hq. apply Hr. by right.
Qed.

Lemma filter_is_all_or_nothing_witness :
  filterPaths (addBuiltins {[ "src" ]}) ["proj/src/a.ts"; "proj/b.ts"]
  = ["proj/src/a.ts"; "proj/b.ts"].
Proof.
  refine (eq_trans
            (filter_is_all_or_nothing {[ "src" ]} ["proj/src/a.ts"; "proj/b.ts"] "proj" _)
            _).
  - intros p [<-|[<-|[]]]; reflexivity.
  - vm_compute. reflexivity.
Defined.

(** ** The nodes of the built tree *)

Lemma nodeAt_prefix_Some d e t :
  is_Some (nodeAt (d ++ e) t) -> is_Some (nodeAt d t).
Proof. rewrite nodeAt_app. destruct (nodeAt d t); [eauto | by intros [? ?]]. Qed.

Lemma buildTree_node_leads filePaths tree chain :
  buildTree filePaths = Some tree -> chain <> [] ->
  is_Some (nodeAt chain tree) ->
  exists path, In path filePaths /\ leads chain path.
Proof.
  intros Hb Hne Hn.
  destruct (decide (Exists (fun p => chain `prefix_of` split slash p) filePaths))
    as [(p & Hp & Hl)%Exists_exists|Hno].
  - exists p. split; [by apply list_elem_of_In | done].
  - rewrite (buildTree_no_node _ _ _ Hb Hne) in Hn; [by destruct Hn|].
    intros p Hp Hl. apply Hno, Exists_exists. exists p.
    split; [by apply list_elem_of_In | done].
Qed.

(** X4: when no segment of the paths names a member of
    [Object.prototype], [buildTree] yields a tree whose nodes are exactly
    the chains of leading segments of the paths; so a path list that holds
    the same paths, in any order and with any repetition, gives a tree
    with the same nodes. *)
Theorem buildTree_nodes_are_leading_chains (filePaths : list string) :
  (forall path, In path filePaths -> plainPath path) ->
  exists tree,
    buildTree filePaths = Some tree
    /\ (forall chain, chain <> [] ->
          (is_Some (nodeAt chain tree)
           <-> exists path, In path filePaths /\ leads chain path))
    /\ (forall filePaths',
          (forall path, In path filePaths <-> In path filePaths') ->
          exists tree',
            buildTree filePaths' = Some tree'
            /\ forall chain, is_Some (nodeAt chain tree) <-> is_Some (nodeAt chain tree')).
Proof.
  intros Hplain.
  assert (forall fp t, buildTree fp = Some t -> forall chain, chain <> [] ->
            (is_Some (nodeAt chain t) <-> exists path, In path fp /\ leads chain path))
    as Hchar.
  { intros fp t Hfp chain Hne. split.
    - by apply buildTree_node_leads.
    - intros (p & Hp & Hl). by eapply buildTree_nodeAt. }
  destruct (foldl_addPath_total (Node []) filePaths Hplain) as [tree Hb].
  exists tree. split; [exact Hb|]. split; [by apply Hchar|].
  intros fp' Hsame.
  destruct (foldl_addPath_total (Node []) fp') as [tree' Hb'].
  { intros path Hin. by apply Hplain, Hsame. }
  exists tree'. split; [exact Hb'|].
  intros chain. destruct chain as [|k d]; [simpl; split; eauto|].
  rewrite (Hchar _ _ Hb), (Hchar _ _ Hb') by done.
  split; intros (p & Hp & Hl); exists p; split; try done; by apply Hsame.
Qed.

Lemma buildTree_nodes_are_leading_chains_witness :
  exists tree,
    buildTree ["a/b/c"; "a/d"] = Some tree
    /\ (forall chain, chain <> [] ->
          (is_Some (nodeAt chain tree)
           <-> exists path, In path ["a/b/c"; "a/d"] /\ leads chain path))
    /\ (forall filePaths',
          (forall path, In path ["a/b/c"; "a/d"] <-> In path filePaths') ->
          exists tree',
            buildTree filePaths' = Some tree'
            /\ forall chain, is_Some (nodeAt chain tree) <-> is_Some (nodeAt chain tree')).
Proof.
  apply (buildTree_nodes_are_leading_chains ["a/b/c"; "a/d"]).
  intros path [<-|[<-|[]]] part Hpart; vm_compute in Hpart;
    repeat (destruct Hpart as [<-|Hpart]; [reflexivity|]); destruct Hpart.
Defined.

(** ** Paths that add nothing *)

Lemma putOwn_same {A} key (v : A) ps : getOwn key ps = Some v -> putOwn key v ps = ps.
Proof.
  induction ps as [|[k w] tl IH]; [done|]. cbn [getOwn putOwn].
  destruct (String.eqb k key); [by intros [= ->] | intros H; by rewrite IH].
Qed.

Lemma walk_existing parts node :
  is_Some (nodeAt parts node) -> walk parts node = Some node.
Proof.
  revert node. induction parts as [|part rest IH]; intros node H; [reflexivity|].
  cbn [nodeAt] in H. cbn [walk].
  destruct (getOwn part (props node)) as [child|] eqn:E; [|by destruct H].
  rewrite (IH child H), (putOwn_same _ _ _ E). by destruct node.
Qed.

(** X5: a path all of whose segments lead a path that is already in the
    list (the same path again, or one of its folders) leaves the tree as it
    is. *)
Theorem buildTree_ignores_covered_path (filePaths : list string) (path covered : string) :
  In path filePaths -> leads (split slash covered) path ->
  buildTree (filePaths ++ [covered]) = buildTree filePaths.
Proof.
  intros Hin Hl. unfold buildTree. rewrite foldl_app. cbn [foldl].
  destruct (foldl addPath (Some (Node [])) filePaths) as [t|] eqn:Hb; [|reflexivity].
  cbn [addPath]. apply walk_existing. by eapply buildTree_nodeAt.
Qed.

Lemma buildTree_ignores_covered_path_witness :
  buildTree (["proj/src/a.ts"] ++ ["proj/src"]) = buildTree ["proj/src/a.ts"].
Proof.
  apply (buildTree_ignores_covered_path ["proj/src/a.ts"] "proj/src/a.ts" "proj/src").
  - simpl. auto.
  - by exists ["a.ts"].
Defined.

(** ** Pruning, once more *)

Lemma removeKey_absent t name :
  hasKey name t = false -> removeKeyRecursively t name = t.
Proof.
  induction t as [ps IH] using Tree_ind_props.
  induction IH as [|[k c] tl Hc _ IHtl]; [reflexivity|].
  rewrite hasKey_cons, !orb_false_iff. intros [[Hk Hch] Htl].
  rewrite removeKey_cons, Hk. cbn [snd] in Hc. by rewrite (Hc Hch), (IHtl Htl).
Qed.

(** X6: pruning a name that is a key nowhere in the tree gives the tree
    back, and pruning the same name a second time changes nothing. *)
Theorem removeKeyRecursively_idempotent (tree : Tree) (name : string) :
  (hasKey name tree = false -> removeKeyRecursively tree name = tree)
  /\ removeKeyRecursively (removeKeyRecursively tree name) name
     = removeKeyRecursively tree name.
Proof.
  split; [apply removeKey_absent|]. apply removeKey_absent, hasKey_removed.
Qed.

Lemma removeKeyRecursively_idempotent_witness :
  removeKeyRecursively (Node [("src", Node [("a.ts", Node [])])]) ".git"
  = Node [("src", Node [("a.ts", Node [])])].
Proof.
  apply (proj1 (removeKeyRecursively_idempotent
                  (Node [("src", Node [("a.ts", Node [])])]) ".git")).
  reflexivity.
Defined.

Lemma removeKey_comm t a b :
  removeKeyRecursively (removeKeyRecursively t a) b
  = removeKeyRecursively (removeKeyRecursively t b) a.
Proof.
  induction t as [ps IH] using Tree_ind_props.
  induction IH as [|[k c] tl Hc _ IHtl]; [reflexivity|]. cbn [snd] in Hc.
  rewrite (removeKey_cons k c tl a), (removeKey_cons k c tl b).
  destruct (String.eqb k a) eqn:Ea, (String.eqb k b) eqn:Eb.
  - exact IHtl.
  - rewrite removeKey_cons, Ea, Node_props. exact IHtl.
  - rewrite removeKey_cons, Eb, Node_props. exact IHtl.
  - rewrite !removeKey_cons, Ea, Eb, !Node_props, Hc, IHtl. reflexivity.
Qed.

(** X7: prunings of two names commute, so the tree that is rendered does
    not depend on the order of the three [removeKeyRecursively] calls. *)
Theorem removeKeyRecursively_commutes (tree : Tree) (a b : string) :
  removeKeyRecursively (removeKeyRecursively tree a) b
  = removeKeyRecursively (removeKeyRecursively tree b) a
  /\ pruneBuiltins tree
     = removeKeyRecursively
         (removeKeyRecursively
            (removeKeyRecursively tree ".DS_Store") ".git") "node_modules".
Proof.
  split; [apply removeKey_comm|]. unfold pruneBuiltins.
  rewrite (removeKey_comm (removeKeyRecursively tree "node_modules") ".git" ".DS_Store").
  rewrite (removeKey_comm tree "node_modules" ".DS_Store").
  rewrite (removeKey_comm (removeKeyRecursively tree ".DS_Store") "node_modules" ".git").
  reflexivity.
Qed.

Lemma nodeAt_removeKey_Some d t name :
  is_Some (nodeAt d (removeKeyRecursively t name))
  <-> is_Some (nodeAt d t) /\ ~ In name d.
Proof.
  split.
  - intros H. assert (~ In name d) as Hd.
    { intros (d1 & d2 & ->)%in_split.
      change (d1 ++ name :: d2) with (d1 ++ [name] ++ d2) in H.
      rewrite app_assoc in H. apply nodeAt_prefix_Some, nodeAt_hasKey in H.
      by rewrite hasKey_removed in H. }
    split; [|done]. rewrite nodeAt_removeKey in H by done.
    destruct (nodeAt d t); [eauto | by destruct H].
  - intros [[n Hn] Hd]. rewrite nodeAt_removeKey, Hn by done. simpl. eauto.
Qed.

(** X8: after a pruning, a chain of keys is a node exactly when it was a
    node before and does not hold the pruned name; the node found there is
    the old one, pruned. *)
Theorem removeKeyRecursively_nodes (tree : Tree) (name : string) (d : list string) :
  (is_Some (nodeAt d (removeKeyRecursively tree name))
   <-> is_Some (nodeAt d tree) /\ ~ In name d)
  /\ (~ In name d ->
      nodeAt d (removeKeyRecursively tree name)
      = option_map (fun n => removeKeyRecursively n name) (nodeAt d tree)).
Proof. split; [apply nodeAt_removeKey_Some | apply nodeAt_removeKey]. Qed.

Lemma removeKeyRecursively_nodes_witness :
  nodeAt ["a"] (removeKeyRecursively (Node [("a", Node [(".git", Node [])])]) ".git")
  = option_map (fun n => removeKeyRecursively n ".git")
               (nodeAt ["a"] (Node [("a", Node [(".git", Node [])])])).
Proof.
  apply (proj2 (removeKeyRecursively_nodes
                  (Node [("a", Node [(".git", Node [])])]) ".git" ["a"])).
  simpl. intros [H|[]]. discriminate.
Defined.

(** X9: when no segment of the paths given to [buildTree] names a member
    of [Object.prototype], the pipeline yields a tree whose nodes are
    exactly the chains of leading segments of those paths that hold none
    of the three built-in names. *)
Theorem prunedTree_nodes (filePaths : list string) :
  (forall path, In path filePaths -> plainPath path) ->
  exists tree,
    prunedTree filePaths = Some tree
    /\ forall chain, chain <> [] ->
         (is_Some (nodeAt chain tree)
          <-> (exists path, In path filePaths /\ leads chain path)
              /\ forall seg, In seg chain -> ~ In seg builtinIgnores).
Proof.
  intros Hplainpaths. destruct (prunedTree_total _ Hplainpaths) as [tree Hp].
  exists tree. split; [exact Hp|]. intros chain Hne.
  unfold prunedTree in Hp. destruct (buildTree filePaths) as [t0|] eqn:Hb; [|discriminate].
  injection Hp as <-. unfold pruneBuiltins. rewrite !nodeAt_removeKey_Some.
  split.
  - intros [[[Hn H1] H2] H3]. split; [by eapply buildTree_node_leads|].
    intros seg Hs [<-|[<-|[<-|[]]]]; tauto.
  - intros [(p & Hp & Hl) Hplain].
    repeat split; [by eapply buildTree_nodeAt|..];
      intros H; apply (Hplain _ H); simpl; auto.
Qed.

Lemma prunedTree_nodes_witness :
  exists tree,
    prunedTree ["a/b/.git/x"] = Some tree
    /\ forall chain, chain <> [] ->
         (is_Some (nodeAt chain tree)
          <-> (exists path, In path ["a/b/.git/x"] /\ leads chain path)
              /\ forall seg, In seg chain -> ~ In seg builtinIgnores).
Proof.
  apply (prunedTree_nodes ["a/b/.git/x"]).
  intros path [<-|[]] part Hpart; vm_compute in Hpart;
    repeat (destruct Hpart as [<-|Hpart]; [reflexivity|]); destruct Hpart.
Defined.

(** ** Keys of one node are pairwise different *)

Lemma uniqueKeys_Node ps :
  uniqueKeys (Node ps)
  <-> NoDup (map fst ps) /\ Forall (fun kc => uniqueKeys (snd kc)) ps.
Proof.
  cbn [uniqueKeys]. apply and_iff_compat_l.
  induction ps as [|[k c] tl IH]; [split; [constructor | done]|].
  rewrite Forall_cons, IH. reflexivity.
Qed.

Lemma Forall_putOwn {A} (P : A -> Prop) key v (ps : list (string * A)) :
  Forall (fun kc => P (snd kc)) ps -> P v ->
  Forall (fun kc => P (snd kc)) (putOwn key v ps).
Proof.
  intros H Hv. induction H as [|[k w] tl Hw Htl IH]; [constructor|].
  cbn [putOwn]. destruct (String.eqb k key); constructor; done.
Qed.

Lemma uniqueKeys_walk parts node node' :
  walk parts node = Some node' -> uniqueKeys node -> uniqueKeys node'.
Proof.
  revert node node'. induction parts as [|part rest IH]; intros node node' W H.
  - by injection W as <-.
  - destruct node as [ps]. apply uniqueKeys_Node in H as [Hk Hc].
    apply walk_cons_inv in W as [(child & child' & E & W & ->)|(child' & E & _ & W & ->)];
      cbn [props] in *; apply uniqueKeys_Node.
    + rewrite putOwn_keys. split; [done|].
      apply Forall_putOwn; [done|]. apply (IH _ _ W).
      apply getOwn_split in E as (pa & pb & ->).
      apply Forall_app in Hc as [_ Hc]. by inversion Hc.
    + destruct (defineOwn_split part child' ps) as (p1 & p2 & -> & -> & _).
      apply getOwn_None_iff in E. split.
      * rewrite map_app in E, Hk |- *. cbn [map fst].
        rewrite <- Permutation_middle. apply NoDup_cons. split; [|done].
        by rewrite list_elem_of_In.
      * apply Forall_app in Hc as [H1 H2]. apply Forall_app. split; [done|].
        constructor; [|done]. cbn [snd]. apply (IH _ _ W). cbn. split; [constructor | done].
Qed.

Lemma uniqueKeys_removeKey t name :
  uniqueKeys t -> uniqueKeys (removeKeyRecursively t name).
Proof.
  induction t as [ps IH] using Tree_ind_props.
  rewrite removeKey_props, !uniqueKeys_Node. intros [Hk Hc]. split.
  - pose proof (keys_removeKey (Node ps) name) as E. rewrite removeKey_props in E.
    unfold keys in E. cbn [props] in E. rewrite E.
    eapply sublist_NoDup; [exact Hk | apply filter_sublist].
  - apply List.Forall_forall.
    intros [k c] ([k0 c0] & [= <- <-] & [Hin _]%filter_In)%in_map_iff. cbn [snd fst].
    apply (proj1 (List.Forall_forall _ _) IH (k0, c0) Hin).
    apply (proj1 (List.Forall_forall _ _) Hc (k0, c0) Hin).
Qed.

Lemma buildTree_uniqueKeys filePaths tree :
  buildTree filePaths = Some tree -> uniqueKeys tree.
Proof.
  intros Ht. unfold buildTree in Ht.
  apply (foldl_addPath_ind uniqueKeys _ _ _ Ht).
  - cbn. split; [constructor | done].
  - intros p a b _ Ha W. by eapply uniqueKeys_walk.
Qed.

Lemma prunedTree_uniqueKeys filePaths tree :
  prunedTree filePaths = Some tree -> uniqueKeys tree.
Proof.
  unfold prunedTree.
  destruct (buildTree filePaths) as [t|] eqn:Hb; [|discriminate]. intros [= <-].
  unfold pruneBuiltins. do 3 apply uniqueKeys_removeKey. by eapply buildTree_uniqueKeys.
Qed.

(** X10: in the built tree and in the pruned tree the keys of every node
    are pairwise different: a folder lists each name once, however many
    paths go through it. *)
Theorem tree_keys_are_unique (filePaths : list string) (tree : Tree) :
  (buildTree filePaths = Some tree -> uniqueKeys tree)
  /\ (prunedTree filePaths = Some tree -> uniqueKeys tree).
Proof. split; [apply buildTree_uniqueKeys | apply prunedTree_uniqueKeys]. Qed.

Lemma tree_keys_are_unique_witness :
  uniqueKeys (Node [("a", Node [("b", Node []); ("c", Node [])])]).
Proof. apply (proj1 (tree_keys_are_unique ["a/b"; "a/c"; "a/b"] _)). reflexivity. Defined.

(** ** One line for every node *)

Lemma chains_Node ps d :
  chains (Node ps) d
  = concat (map (fun kc => (d ++ [fst kc]) :: chains (snd kc) (d ++ [fst kc])) ps).
Proof.
  cbn [chains]. induction ps as [|[k c] tl IH]; [reflexivity|].
  cbn [map concat fst snd]. by rewrite IH.
Qed.

Lemma concat_empty_cons x l : String.concat "" (x :: l) = x +:+ String.concat "" l.
Proof. destruct l; cbn [String.concat]; [by rewrite append_nil_r_any | reflexivity]. Qed.

Lemma pad_cases i n : In (pad i n) [lastPad; midPad].
Proof. unfold pad. destruct (Nat.eqb i (n - 1)); simpl; auto. Qed.

Lemma lineOfChain_first indent d i n k :
  lineOfChain indent d (indent +:+ connector i n +:+ k) (d ++ [k]).
Proof.
  exists [], (connector i n), k. repeat split.
  - apply last_last.
  - rewrite length_app. simpl. lia.
  - constructor.
  - apply connector_cases.
Qed.

Lemma lineOfChain_deeper indent d i n k line chain :
  lineOfChain (indent +:+ pad i n) (d ++ [k]) line chain ->
  lineOfChain indent d line chain.
Proof.
  intros (pads & c & k' & -> & Hlast & Hlen & Hpads & Hc).
  exists (pad i n :: pads), c, k'. repeat split; [|done| | |done].
  - by rewrite concat_empty_cons, !append_assoc.
  - rewrite length_app in Hlen. simpl in *. lia.
  - constructor; [apply pad_cases | done].
Qed.

Lemma treeToString_chains t :
  forall indent d, Forall2 (lineOfChain indent d) (treeToString t indent) (chains t d).
Proof.
  induction t as [ps IH] using Tree_ind_props. intros indent d.
  rewrite treeToString_Node, chains_Node.
  generalize (length ps) as n. intros n.
  assert (forall i,
            Forall2 (lineOfChain indent d)
              (concat (imap (fun j => lineGroup n indent (i + j)) ps))
              (concat (map (fun kc => (d ++ [fst kc]) :: chains (snd kc) (d ++ [fst kc]))
                           ps))) as H.
  { induction IH as [|[k c] tl Hc _ IHtl]; intros i; [constructor|].
    rewrite imap_cons. cbn [map concat fst snd]. apply Forall2_app.
    - rewrite Nat.add_0_r, lineGroup_cons. constructor; [apply lineOfChain_first|].
      destruct c as [[|e es]]; [constructor|]. cbn [props length Nat.ltb Nat.leb].
      eapply Forall2_impl; [apply Hc|]. intros line chain. apply lineOfChain_deeper.
    - erewrite imap_ext; [apply (IHtl (S i))|]. intros j e _. simpl. f_equal. lia. }
  apply (H 0%nat).
Qed.

Lemma getOwn_In_unique {A} key (v : A) ps :
  NoDup (map fst ps) -> In (key, v) ps -> getOwn key ps = Some v.
Proof.
  induction ps as [|[k w] tl IH]; [done|]. cbn [map fst getOwn].
  intros [Hk Htl]%NoDup_cons [[= -> ->]|Hin].
  - by rewrite String.eqb_refl.
  - destruct (String.eqb_spec k key) as [->|Hne]; [|by apply IH].
    exfalso. apply Hk, list_elem_of_In, in_map_iff. by exists (key, v).
Qed.

Lemma getOwn_In {A} key (v : A) ps : getOwn key ps = Some v -> In (key, v) ps.
Proof.
  intros (pa & pb & ->)%getOwn_split. apply in_app_iff. right. by left.
Qed.

Lemma chains_nodes t :
  uniqueKeys t ->
  forall d chain,
    In chain (chains t d)
    <-> exists e, e <> [] /\ chain = d ++ e /\ is_Some (nodeAt e t).
Proof.
  induction t as [ps IH] using Tree_ind_props.
  intros [Hk Hc]%uniqueKeys_Node d chain. rewrite chains_Node, in_concat. split.
  - intros (group & ([k c] & <- & Hin)%in_map_iff & Hg). cbn [fst snd] in Hg.
    pose proof (getOwn_In_unique _ _ _ Hk Hin) as Hget.
    destruct Hg as [<-|Hg].
    + exists [k]. repeat split; [done|]. cbn [nodeAt props]. rewrite Hget. eauto.
    + apply (proj1 (List.Forall_forall _ _) IH (k, c) Hin) in Hg as (e & He & -> & Hn);
        [|exact (proj1 (List.Forall_forall _ _) Hc (k, c) Hin)].
      exists (k :: e). repeat split; [done | by rewrite <- app_assoc |].
      cbn [nodeAt props]. by rewrite Hget.
  - intros ([|k e] & He & -> & Hn); [done|]. cbn [nodeAt props] in Hn.
    destruct (getOwn k ps) as [c|] eqn:Hget; [|by destruct Hn].
    apply getOwn_In in Hget as Hin.
    exists ((d ++ [k]) :: chains c (d ++ [k])). split.
    + apply in_map_iff. by exists (k, c).
    + destruct e as [|k' e']; [left; reflexivity|]. right.
      apply (proj1 (List.Forall_forall _ _) IH (k, c) Hin);
        [exact (proj1 (List.Forall_forall _ _) Hc (k, c) Hin)|].
      exists (k' :: e'). repeat split; [done | by rewrite <- app_assoc | done].
Qed.

(** X11: [treeToString] gives one line for every node below the root,
    parents before their children and siblings in enumeration order: the
    line of a node is the indent, one pad for every level above it, a
    connector and its key; when the keys of every node are pairwise
    different, the chains listed are exactly the nodes of the tree. *)
Theorem treeToString_one_line_per_node (tree : Tree) (indent : string) :
  Forall2 (lineOfChain indent []) (treeToString tree indent) (chains tree [])
  /\ length (treeToString tree indent) = length (chains tree [])
  /\ (uniqueKeys tree ->
      forall chain,
        In chain (chains tree []) <-> chain <> [] /\ is_Some (nodeAt chain tree)).
Proof.
  split; [apply treeToString_chains|].
  split; [eapply Forall2_length, treeToString_chains|].
  intros Hu chain. rewrite (chains_nodes tree Hu [] chain). split.
  - intros (e & He & -> & Hn). done.
  - intros [He Hn]. by exists chain.
Qed.

Lemma treeToString_one_line_per_node_witness :
  In ["a"; "b"] (chains (Node [("a", Node [("b", Node [])])]) [])
  <-> ["a"; "b"] <> [] /\ is_Some (nodeAt ["a"; "b"] (Node [("a", Node [("b", Node [])])])).
Proof.
  apply (proj2 (proj2 (treeToString_one_line_per_node
                         (Node [("a", Node [("b", Node [])])]) ""))).
  cbn. repeat split; apply (bool_decide_unpack _); vm_compute; exact I.
Defined.

(** ** Lines without a newline *)

Lemma lacks_pieces c sep s :
  lacks c s = true -> Forall (fun p => lacks c p = true) (split sep s).
Proof.
  induction s as [|x s IH]; [by repeat constructor|]. cbn [lacks split].
  intros [Hx Hs]%andb_true_iff. specialize (IH Hs).
  destruct (Ascii.eqb x sep); [by constructor|].
  destruct (split sep s) as [|p ps]; constructor.
  - cbn. by rewrite Hx.
  - constructor.
  - cbn [lacks]. rewrite Hx. by inversion IH.
  - by inversion IH.
Qed.

Lemma lacks_pads pads :
  Forall (fun p => In p [lastPad; midPad]) pads ->
  lacks newline (String.concat "" pads) = true.
Proof.
  induction 1 as [|p pads Hp _ IH]; [reflexivity|].
  rewrite concat_empty_cons, lacks_append, IH.
  by destruct Hp as [<-|[<-|[]]].
Qed.

Lemma lacks_uint d : lacks newline (NilEmpty.string_of_uint d) = true.
Proof. induction d; cbn; done. Qed.

Lemma lineOfChain_lacks indent d line chain :
  lineOfChain indent d line chain ->
  lacks newline indent = true -> lacks newline (List.last chain "") = true ->
  lacks newline line = true.
Proof.
  intros (pads & c & k & -> & <- & _ & Hpads & Hc) Hi Hk.
  rewrite !lacks_append, Hi, (lacks_pads _ Hpads), Hk.
  by destruct Hc as [<-|[<-|[]]].
Qed.

Lemma Forall2_In_l {A B} (R : A -> B -> Prop) l1 l2 x :
  Forall2 R l1 l2 -> In x l1 -> exists y, In y l2 /\ R x y.
Proof.
  induction 1 as [|a b l1 l2 Hab _ IH]; [done|].
  intros [<-|Hin]; [exists b; split; [by left | done]|].
  destruct (IH Hin) as (y & Hy & HR). exists y. split; [by right | done].
Qed.

Lemma prefix_last_In (chain l : list string) :
  chain <> [] -> chain `prefix_of` l -> In (List.last chain "") l.
Proof.
  intros Hne [r ->]. apply in_app_iff. left.
  destruct (exists_last Hne) as (c & k & ->). rewrite last_last.
  apply in_app_iff. right. by left.
Qed.

Lemma prunedTree_lines_lack_newline filePaths tree line :
  prunedTree filePaths = Some tree ->
  (forall path, In path filePaths -> lacks newline path = true) ->
  In line (treeToString tree "") -> lacks newline line = true.
Proof.
  intros Hp Hpaths Hline.
  destruct (Forall2_In_l _ _ _ _ (treeToString_chains tree "" []) Hline)
    as (chain & Hchain & HR).
  apply (lineOfChain_lacks _ _ _ _ HR); [reflexivity|].
  apply (chains_nodes tree (prunedTree_uniqueKeys _ _ Hp)) in Hchain
    as (e & He & -> & Hn). cbn [app].
  unfold prunedTree in Hp. destruct (buildTree filePaths) as [t0|] eqn:Hb; [|discriminate].
  injection Hp as <-. unfold pruneBuiltins in Hn.
  rewrite !nodeAt_removeKey_Some in Hn. destruct Hn as [[[Hn _] _] _].
  destruct (buildTree_node_leads _ _ _ Hb He Hn) as (path & Hin & Hl).
  pose proof (lacks_pieces newline slash path (Hpaths _ Hin)) as Hpieces.
  apply (proj1 (List.Forall_forall _ _) Hpieces). by apply prefix_last_In.
Qed.

(** X12: when no selected path holds a newline, splitting the structure
    text at the newlines gives back the root line and the rendered lines,
    so the number of lines that the truncation note reports is one more
    than the number of nodes of the rendered tree. *)
Theorem structure_lines_are_rendered_lines
    (userIgnores : gset string) (files : list string)
    (rootFolder structureText preview : string) :
  handlePreviewWith userIgnores (Some files) = Preview rootFolder structureText preview ->
  (forall path, In path files -> lacks newline path = true) ->
  exists tree,
    prunedTree (filterPaths (addBuiltins userIgnores) files) = Some tree
    /\ split newline structureText = rootFolder :: treeToString tree ""
    /\ length (split newline structureText) = S (length (chains tree [])).
Proof.
  unfold handlePreviewWith. destruct files as [|firstFile files]; [discriminate|].
  destruct (prunedTree _) as [tree|] eqn:Hp; [|discriminate].
  intros [= <- <- _] Hpaths. exists tree. split; [reflexivity|].
  assert (split newline (join nl ([firstPart firstFile] ++ treeToString tree ""))
          = firstPart firstFile :: treeToString tree "") as Hs.
  { cbn [app]. apply split_join; [done|]. constructor.
    - unfold firstPart.
      pose proof (lacks_pieces newline slash firstFile (Hpaths _ (or_introl eq_refl))) as H.
      destruct (split slash firstFile); [reflexivity | by inversion H].
    - apply List.Forall_forall. intros line Hline.
      apply (prunedTree_lines_lack_newline _ _ _ Hp); [|done].
      intros path Hin. apply Hpaths. rewrite filterPaths_filter in Hin.
      by apply filter_In in Hin as [? _]. }
  split; [exact Hs|].
  etransitivity; [exact (f_equal (@length string) Hs)|]. cbn [length]. f_equal.
  eapply Forall2_length, treeToString_chains.
Qed.

Lemma structure_lines_are_rendered_lines_witness :
  exists tree,
    prunedTree (filterPaths (addBuiltins ∅) ["p/a"; "p/b"]) = Some tree
    /\ split newline (join nl ["p"; "└── p"; "    ├── a"; "    └── b"])
       = "p" :: treeToString tree ""
    /\ length (split newline (join nl ["p"; "└── p"; "    ├── a"; "    └── b"]))
       = S (length (chains tree [])).
Proof.
  apply (structure_lines_are_rendered_lines ∅ ["p/a"; "p/b"] "p" _
           (join nl ["p"; "└── p"; "    ├── a"; "    └── b"])).
  - vm_compute. reflexivity.
  - intros path [<-|[<-|[]]]; reflexivity.
Defined.

(** ** The size of the preview *)

(** X13: the preview never has more than 101 lines, and its first 100
    lines are the first 100 lines of the structure text. *)
Theorem preview_has_at_most_101_lines (structureText : string) :
  (length (split newline (previewOf structureText)) <= 101)%nat
  /\ take 100 (split newline (previewOf structureText))
     = take 100 (split newline structureText).
Proof.
  unfold previewOf.
  pose proof (split_lacks newline structureText) as Hl.
  pose proof (split_not_nil newline structureText) as Hne.
  set (lines := split newline structureText) in *.
  assert (take 100 lines <> []) as Hne' by (by destruct lines).
  assert (Forall (fun p => lacks newline p = true) (take 100 lines)) as Hl'.
  { by apply Forall_take. }
  destruct (Nat.ltb_spec 100 (length lines)) as [Hlt|Hge].
  - unfold truncationNote. rewrite nl_append.
    change (String newline ?x) with (nl +:+ x).
    rewrite <- join_snoc by done. unfold nl. rewrite split_join.
    + rewrite length_app, length_take. cbn [length]. split; [lia|].
      rewrite take_app_le by (rewrite length_take; lia).
      by rewrite take_take, Nat.min_id.
    + by destruct (take 100 lines).
    + apply Forall_app. split; [done|]. constructor; [|constructor].
      rewrite !lacks_append. unfold decimal. by rewrite lacks_uint.
  - unfold nl. rewrite split_join by done. rewrite length_take. split; [lia|].
    by rewrite take_take, Nat.min_id.
Qed.

(** ** Reading the structure back from the document *)

(** X14: the structure text can be read back from the generated document:
    drop its first five lines and its last line and join the rest; so two
    different structure texts never give the same document. *)
Theorem readme_structure_round_trip (structure rootFolderName doc : string) :
  handleGenerateReadme structure rootFolderName = inr doc ->
  join nl (removelast (drop 5 (split newline doc))) = structure
  /\ forall structure' rootFolderName',
       handleGenerateReadme structure' rootFolderName' = inr doc ->
       structure' = structure.
Proof.
  assert (forall s r d, handleGenerateReadme s r = inr d ->
            join nl (removelast (drop 5 (split newline d))) = s) as H.
  { intros s r d. unfold handleGenerateReadme.
    destruct (_ || _); [discriminate|]. intros [= <-].
    rewrite readmeContent_lines. cbn [app drop]. rewrite drop_0.
    by rewrite removelast_last, join_split. }
  intros Hd. split; [by eapply H|].
  intros s' r' Hd'. by rewrite <- (H _ _ _ Hd'), <- (H _ _ _ Hd).
Qed.

Lemma readme_structure_round_trip_witness :
  join nl (removelast (drop 5 (split newline (readmeContent "proj")))) = "proj".
Proof.
  apply (proj1 (readme_structure_round_trip "proj" "proj" _ eq_refl)).
Defined.

(** ** Preview, then Generate README *)

Lemma join_head_nonempty sep x l : x <> "" -> join sep (x :: l) <> "".
Proof.
  intros Hx. destruct x as [|c x]; [done|]. by rewrite join_cons_String.
Qed.

Lemma handlePreviewWith_Preview userIgnores projectFiles rootFolder structureText preview :
  handlePreviewWith userIgnores projectFiles = Preview rootFolder structureText preview ->
  rootFolder = getRootFolderName projectFiles
  /\ preview = previewOf structureText
  /\ (rootFolder <> "" -> structureText <> "").
Proof.
  unfold handlePreviewWith.
  destruct projectFiles as [[|firstFile files]|]; try discriminate.
  destruct (prunedTree _) as [tree|]; [|discriminate].
  intros [= <- <- <-]. repeat split. intros H. by apply join_head_nonempty.
Qed.

(** X15: after a preview that completed, the Generate button is shown,
    the stored root folder name is the first segment of the first selected
    path and the preview is the cut of the stored structure text; Generate
    README then downloads "<root>.md" holding the template around that
    structure text when the root folder name is not empty, and only shows
    the alert when it is empty. *)
Theorem generate_after_preview (s s' : State.t) :
  handlePreviewState s = Done s' ->
  State.showGenerateButton s' = true
  /\ State.rootFolderName s' = getRootFolderName (State.projectFiles s)
  /\ State.previewContent s' = previewOf (State.structure s')
  /\ (State.rootFolderName s' <> "" ->
      handleGenerateReadmeState s'
      = inr (State.rootFolderName s' +:+ ".md", readmeContent (State.structure s')))
  /\ (State.rootFolderName s' = "" ->
      handleGenerateReadmeState s' = inl "Missing structure or folder name.").
Proof.
  unfold handlePreviewState, handlePreview.
  destruct (handlePreviewWith _ _) as [m|r|root st pv] eqn:Hp; try discriminate.
  intros [= <-]. cbn [State.showGenerateButton State.rootFolderName
                      State.previewContent State.structure].
  apply handlePreviewWith_Preview in Hp as (Hroot & Hpv & Hst).
  repeat split; [done | done | |].
  - intros Hne. unfold handleGenerateReadmeState.
    cbn [State.structure State.rootFolderName].
    by rewrite (handleGenerateReadme_inr _ _ (Hst Hne) Hne).
  - intros ->. unfold handleGenerateReadmeState, handleGenerateReadme.
    cbn [State.structure State.rootFolderName]. by rewrite orb_true_r.
Qed.

Lemma generate_after_preview_witness :
  handleGenerateReadmeState
    (State.make (Some ["p/a"]) None (join nl ["p"; "└── p"; "    └── a"]) true 100 true "p"
       (join nl ["p"; "└── p"; "    └── a"]))
  = inr ("p.md", readmeContent (join nl ["p"; "└── p"; "    └── a"])).
Proof.
  apply (proj1 (proj2 (proj2 (proj2
           (generate_after_preview
              (State.make (Some ["p/a"]) None "" false 0 false "" "") _ eq_refl))))).
  discriminate.
Defined.

(** X16: Start Over brings the selections, the preview, the progress, the
    root folder name and the structure text back to their first values,
    whatever the state was; right after it Preview and Generate README
    only show their alerts, so a document of an earlier preview cannot be
    downloaded any more. *)
Theorem start_over_forgets_the_preview (s : State.t) :
  handleStartOver s = initialState
  /\ handlePreviewState (handleStartOver s)
     = Alerted "Please select a project folder." initialState
  /\ handleGenerateReadmeState (handleStartOver s)
     = inl "Missing structure or folder name.".
Proof. repeat split. Qed.

(** ** The stored selection *)

(** X17: the selection stored by the change handlers is never an empty
    list: an empty [FileList] is stored as [null].  The file count, the
    root folder name and the outcome of the preview are those of the
    files given, and the preview alerts exactly when the stored selection
    is [null], which is when its button is disabled. *)
Theorem stored_selection_is_never_empty
    (targetFiles : option (list string)) (userIgnores : gset string) :
  handleProjectFilesChange targetFiles <> Some []
  /\ handleIgnoreFilesChange targetFiles <> Some []
  /\ getFileCount (handleProjectFilesChange targetFiles) = getFileCount targetFiles
  /\ getRootFolderName (handleProjectFilesChange targetFiles)
     = getRootFolderName targetFiles
  /\ handlePreviewWith userIgnores (handleProjectFilesChange targetFiles)
     = handlePreviewWith userIgnores targetFiles
  /\ ignoreFoldersOf (handleIgnoreFilesChange targetFiles) = ignoreFoldersOf targetFiles
  /\ (handleProjectFilesChange targetFiles = None
      <-> exists message,
            handlePreviewWith userIgnores (handleProjectFilesChange targetFiles)
            = Alert message).
Proof.
  destruct targetFiles as [[|f fs]|]; cbn [handleProjectFilesChange handleIgnoreFilesChange].
  - repeat split; try done. eauto.
  - repeat split; try done. intros [m Hm]. unfold handlePreviewWith in Hm.
    destruct (prunedTree _); discriminate.
  - repeat split; try done. eauto.
Qed.

(** ** The list of ignore selections *)

Lemma filter_app_single {A} (f : A -> bool) l x :
  f x = false -> List.filter f (l ++ [x]) = List.filter f l.
Proof. intros H. rewrite List.filter_app. cbn. by rewrite H, app_nil_r. Qed.

Lemma filter_all_true {A} (f : A -> bool) l :
  (forall x, In x l -> f x = true) -> List.filter f l = l.
Proof.
  intros H. induction l as [|x l IH]; [reflexivity|]. cbn.
  rewrite (H x) by (by left). f_equal. apply IH. intros y Hy. apply H. by right.
Qed.

(** X18: removing the entry that was just added gives the list back when
    no other entry carries the same id; entries that carry the same id
    (added within the same millisecond) are removed with it.  Choosing
    files for an id keeps the ids and the order of the entries and gives
    the files to every entry with that id and to no other. *)
Theorem ignore_entries_by_id
    (now id : string) (files : option (list string))
    (ignoreFoldersList : list (string * option (list string))) :
  handleRemoveIgnoreFolder now (handleAddIgnoreFolder now ignoreFoldersList)
  = handleRemoveIgnoreFolder now ignoreFoldersList
  /\ ((forall item, In item ignoreFoldersList -> fst item <> now) ->
      handleRemoveIgnoreFolder now (handleAddIgnoreFolder now ignoreFoldersList)
      = ignoreFoldersList)
  /\ map fst (handleIgnoreFilesChangeAt id files ignoreFoldersList)
     = map fst ignoreFoldersList
  /\ (forall i item,
        ignoreFoldersList !! i = Some item ->
        handleIgnoreFilesChangeAt id files ignoreFoldersList !! i
        = Some (if String.eqb (fst item) id then (fst item, files) else item)).
Proof.
  assert (handleRemoveIgnoreFolder now (handleAddIgnoreFolder now ignoreFoldersList)
          = handleRemoveIgnoreFolder now ignoreFoldersList) as H.
  { unfold handleRemoveIgnoreFolder, handleAddIgnoreFolder.
    apply filter_app_single. cbn [fst]. by rewrite String.eqb_refl. }
  split; [exact H|]. split; [|split].
  - intros Hfresh. rewrite H. apply filter_all_true.
    intros item Hin. apply negb_true_iff, String.eqb_neq. by apply Hfresh.
  - unfold handleIgnoreFilesChangeAt. rewrite map_map. apply map_ext.
    intros [k v]. cbn [fst]. by destruct (String.eqb k id).
  - intros i item Hi. unfold handleIgnoreFilesChangeAt.
    change (map ?f ?l) with (f <$> l). by rewrite list_lookup_fmap, Hi.
Qed.

Lemma ignore_entries_by_id_witness :
  handleRemoveIgnoreFolder "1700000000001"
    (handleAddIgnoreFolder "1700000000001" [("1700000000000", Some ["dist/a.js"])])
  = [("1700000000000", Some ["dist/a.js"])].
Proof.
  apply (proj1 (proj2 (ignore_entries_by_id "1700000000001" "" None
                         [("1700000000000", Some ["dist/a.js"])]))).
  intros item [<-|[]]. discriminate.
Defined.

Lemma elem_of_ignoreFoldersOfEntries ignoreFoldersList name :
  name ∈ ignoreFoldersOfEntries ignoreFoldersList
  <-> exists id files path,
        In (id, Some files) ignoreFoldersList /\ In path files /\ name = firstPart path.
Proof.
  unfold ignoreFoldersOfEntries. rewrite elem_of_ignoreFoldersOfList. split.
  - intros (fs & p & ([id o] & Ho & Hin)%in_map_iff & Hp & ->). cbn [snd] in Ho. subst o.
    eauto 6.
  - intros (id & fs & p & Hin & Hp & ->). exists fs, p. split; [|done].
    apply in_map_iff. by exists (id, Some fs).
Qed.

(** X19: the ignore names that the preview uses are the first segments of
    the paths of the entries that hold files.  Adding an entry, which
    holds no files yet, leaves these names as they are, and removing
    entries can only take names away. *)
Theorem ignore_names_of_entries
    (now id : string) (ignoreFoldersList : list (string * option (list string))) :
  (forall name,
      name ∈ ignoreFoldersOfEntries ignoreFoldersList
      <-> exists entry files path,
            In (entry, Some files) ignoreFoldersList /\ In path files
            /\ name = firstPart path)
  /\ ignoreFoldersOfEntries (handleAddIgnoreFolder now ignoreFoldersList)
     = ignoreFoldersOfEntries ignoreFoldersList
  /\ ignoreFoldersOfEntries (handleRemoveIgnoreFolder id ignoreFoldersList)
     ⊆ ignoreFoldersOfEntries ignoreFoldersList.
Proof.
  split; [apply elem_of_ignoreFoldersOfEntries|]. split.
  - apply set_eq. intros name. rewrite !elem_of_ignoreFoldersOfEntries.
    unfold handleAddIgnoreFolder. split.
    + intros (e & fs & p & [Hin|[[=]|[]]]%in_app_iff & Hp & ->). eauto 6.
    + intros (e & fs & p & Hin & Hp & ->). exists e, fs, p.
      split; [apply in_app_iff; by left | done].
  - intros name. rewrite !elem_of_ignoreFoldersOfEntries.
    unfold handleRemoveIgnoreFolder.
    intros (e & fs & p & [Hin _]%filter_In & Hp & ->). eauto 6.
Qed.

(** ** The two source files *)

(** X20: with a single ignore selection the handler of the second source
    file gives the outcome of the handler of [App.tsx]; with several, its
    ignore names are those of the selections taken together. *)
Theorem ignore_list_variant_agrees
    (projectFiles ignoreFiles : option (list string))
    (ignoreFoldersList : list (option (list string))) :
  handlePreviewList projectFiles [ignoreFiles] = handlePreview projectFiles ignoreFiles
  /\ forall name,
       name ∈ ignoreFoldersOfList ignoreFoldersList
       <-> exists selection,
             In selection ignoreFoldersList /\ name ∈ ignoreFoldersOf selection.
Proof.
  split; [by destruct ignoreFiles|].
  intros name. rewrite elem_of_ignoreFoldersOfList. split.
  - intros (fs & p & Hin & Hp & ->). exists (Some fs). split; [done|].
    apply elem_of_ignoreFoldersOf. eauto.
  - intros (sel & Hin & (fs & p & -> & Hp & ->)%elem_of_ignoreFoldersOf). eauto.
Qed.

(** ** Progress reports *)

Lemma filter_orb_length {A} (f g : A -> bool) l :
  (length (List.filter (fun x => f x || g x) l)
   <= length (List.filter f l) + length (List.filter g l))%nat.
Proof.
  induction l as [|x l IH]; [done|]. cbn [List.filter].
  destruct (f x), (g x); cbn [orb length]; lia.
Qed.

Lemma filter_eqb_seq_above k a n :
  (k < a)%nat -> List.filter (fun i => Nat.eqb i k) (seq a n) = [].
Proof.
  revert a. induction n as [|n IH]; intros a Hlt; [reflexivity|].
  cbn [seq List.filter]. destruct (Nat.eqb_spec a k); [lia|]. apply IH. lia.
Qed.

Lemma filter_eqb_seq_length k a n :
  (length (List.filter (fun i => Nat.eqb i k) (seq a n)) <= 1)%nat.
Proof.
  revert a. induction n as [|n IH]; intros a; [cbn; lia|].
  cbn [seq List.filter]. destruct (Nat.eqb_spec a k) as [->|Hne]; [|apply IH].
  cbn [length]. rewrite filter_eqb_seq_above by lia. cbn. lia.
Qed.

Lemma multiples_in_seq_length n :
  (100 * length (List.filter (fun i => Nat.eqb (i mod 100) 0) (seq 0 n)) < n + 100)%nat.
Proof.
  induction n as [|n IH]; [cbn; lia|].
  rewrite seq_S, List.filter_app, length_app. cbn [List.filter Nat.add].
  destruct (Nat.eqb_spec (n mod 100) 0) as [Hm|Hm]; cbn [length]; [|lia].
  pose proof (Nat.div_mod_eq n 100). lia.
Qed.

(** X21: the filter loop reports progress at most [n / 100 + 2] times for
    [n] files, never once per file beyond that; when there is a file, the
    first report is made at the first file and the last report at the last
    file. *)
Theorem progress_reports_are_few (totalFiles : nat) :
  (length (progressIndices totalFiles) <= totalFiles / 100 + 2)%nat
  /\ ((0 < totalFiles)%nat ->
      hd 0%nat (progressIndices totalFiles) = 0%nat
      /\ List.last (progressIndices totalFiles) 0%nat = (totalFiles - 1)%nat).
Proof.
  split.
  - unfold progressIndices.
    pose proof (filter_orb_length (fun i => Nat.eqb (i mod 100) 0)
                  (fun i => Nat.eqb i (totalFiles - 1)) (seq 0 totalFiles)) as H1.
    pose proof (filter_eqb_seq_length (totalFiles - 1) 0 totalFiles) as H2.
    pose proof (multiples_in_seq_length totalFiles) as H3.
    pose proof (Nat.div_mod_eq totalFiles 100) as H4.
    pose proof (Nat.mod_upper_bound totalFiles 100) as H5.
    lia.
  - intros Hpos. unfold progressIndices. destruct totalFiles as [|n]; [lia|]. split.
    + reflexivity.
    + rewrite seq_S, List.filter_app. cbn [List.filter Nat.add].
      replace (S n - 1)%nat with n by lia. rewrite Nat.eqb_refl, orb_true_r.
      apply last_last.
Qed.

Lemma progress_reports_are_few_witness :
  hd 0%nat (progressIndices 250) = 0%nat
  /\ List.last (progressIndices 250) 0%nat = (250 - 1)%nat.
Proof. apply (proj2 (progress_reports_are_few 250)). lia. Defined.

(** ** Selections the preview completes on *)

Lemma handlePreview_completes_witness :
  exists structure,
    handlePreviewWith ∅ (Some ["proj/src/a.ts"; "proj/README.md"])
    = Preview (firstPart "proj/src/a.ts") structure (previewOf structure).
Proof.
  apply (handlePreview_completes ∅ "proj/src/a.ts" ["proj/README.md"]).
  intros p [<-|[<-|[]]] part Hpart; vm_compute in Hpart;
    repeat (destruct Hpart as [<-|Hpart]; [reflexivity|]); destruct Hpart.
Defined.
